(** * get-secretmanager-secrets: the action's entry point, [src/main.ts]

    A shallow embedding of [validateSubscription] and [run] together with
    the JavaScript built-ins they rely on ([String.prototype.split] on the
    line-break pattern, [parseInt], [String.prototype.trim]) and the
    [@actions/core] primitives they call.  Side effects are recorded as a
    chronological trace of [Event]s; exceptions and [process.exit] are the
    two abnormal outcomes of an action. *)

From stdpp Require Import base option list strings gmap.
From Stdlib Require Import ZArith Ascii String List Bool Lia.
Import ListNotations.

Local Open Scope string_scope.
Local Open Scope Z_scope.
Local Open Scope list_scope.

(** ** JavaScript strings

    A string is a sequence of code units; the model keeps the code units
    0..255 ([ascii]).  Nothing in [main.ts] inspects a code unit other than
    carriage return, line feed, white space, signs and digits. *)

Module Js.

Definition CR : ascii := "013"%char.
Definition LF : ascii := "010"%char.

Definition is_empty (s : string) : bool :=
  match s with
  | EmptyString => true
  | String _ _ => false
  end.

(** A string is truthy when it is not empty. *)
Definition truthy (s : string) : bool := negb (is_empty s).

(** [s || d] on strings. *)
Definition or_else (s d : string) : string := if truthy s then s else d.

(** White space and line terminators among the code units 0..255:
    TAB, LF, VT, FF, CR, SP and NBSP. *)
Definition is_space (c : ascii) : bool :=
  let n := N_of_ascii c in
  ((9 <=? n) && (n <=? 13) || (n =? 32) || (n =? 160))%N.

Fixpoint trimStart (s : string) : string :=
  match s with
  | EmptyString => EmptyString
  | String c rest => if is_space c then trimStart rest else s
  end.

(** [trimEnd] drops the longest suffix of white space. *)
Fixpoint trimEnd (s : string) : string :=
  match s with
  | EmptyString => EmptyString
  | String c rest =>
      let rest' := trimEnd rest in
      if is_space c && is_empty rest' then EmptyString else String c rest'
  end.

Definition trim (s : string) : string := trimEnd (trimStart s).

(** [value.split(/\r\n|\r|\n/g)]: the alternatives are tried in order at
    each position, so a carriage return followed by a line feed is one
    separator.  The result always has at least one element. *)
Fixpoint split_lines (s : string) : list string :=
  match s with
  | EmptyString => [EmptyString]
  | String c rest =>
      if Ascii.eqb c CR then
        match rest with
        | String c2 rest2 =>
            if Ascii.eqb c2 LF then EmptyString :: split_lines rest2
            else EmptyString :: split_lines rest
        | EmptyString => EmptyString :: split_lines rest
        end
      else if Ascii.eqb c LF then EmptyString :: split_lines rest
      else
        match split_lines rest with
        | line :: lines => String c line :: lines
        | [] => [String c EmptyString]
        end
  end.

(** *** Numbers, as far as [parseInt] produces them

    [parseInt] returns NaN or an integer.  The integer is kept exact: the
    rounding to a double is monotone and leaves every string length
    unchanged, so the comparison [line.length >= minMaskLength] gives the
    same answer on the exact integer. *)
Inductive Number : Type :=
| NaN
| Num (z : Z).

Definition digit_value (c : ascii) : option Z :=
  let n := Z.of_N (N_of_ascii c) in
  if (48 <=? n) && (n <=? 57) then Some (n - 48)
  else if (97 <=? n) && (n <=? 122) then Some (n - 87)
  else if (65 <=? n) && (n <=? 90) then Some (n - 55)
  else None.

Definition radix_digit (R : Z) (c : ascii) : option Z :=
  match digit_value c with
  | Some d => if d <? R then Some d else None
  | None => None
  end.

(** The digits of the longest prefix of [s] made of radix-[R] digits. *)
Fixpoint digits_prefix (R : Z) (s : string) : list Z :=
  match s with
  | EmptyString => []
  | String c rest =>
      match radix_digit R c with
      | Some d => d :: digits_prefix R rest
      | None => []
      end
  end.

Definition mathInt (R : Z) (ds : list Z) : Z :=
  fold_left (fun acc d => acc * R + d) ds 0.

Definition strip_sign (s : string) : Z * string :=
  match s with
  | String "-"%char rest => (-1, rest)
  | String "+"%char rest => (1, rest)
  | _ => (1, s)
  end.

Definition strip_hex_prefix (s : string) : Z * string :=
  match s with
  | String "0"%char (String "x"%char rest) => (16, rest)
  | String "0"%char (String "X"%char rest) => (16, rest)
  | _ => (10, s)
  end.

(** [parseInt(s)] with no radix argument. *)
Definition parseInt (s : string) : Number :=
  let '(sign, s1) := strip_sign (trimStart s) in
  let '(R, s2) := strip_hex_prefix s1 in
  match digits_prefix R s2 with
  | [] => NaN
  | ds => Num (sign * mathInt R ds)
  end.

(** [len >= m] where [len] is a string length: false when [m] is NaN. *)
Definition length_ge (len : nat) (m : Number) : bool :=
  match m with
  | NaN => false
  | Num z => z <=? Z.of_nat len
  end.

(** A thrown value.  [isAxiosError] and [response_status] are what
    [validateSubscription] inspects ([err.response?.status]); [message] is
    what an [Error] carries. *)
Record Thrown : Type := {
  message : string;
  isAxiosError : bool;
  response_status : option Z
}.

(** [new Error(msg)] *)
Definition Error (msg : string) : Thrown :=
  {| message := msg; isAxiosError := false; response_status := None |}.

End Js.

(** ** The world around the action *)

(** A parsed secret reference ([./reference]); [run] reads only [output]. *)
Record Reference : Type := {
  locator : string;
  output : string
}.

(** [new Client({ universe })] ([./client]) *)
Record Client : Type := {
  universe : string
}.

(** What one run can observe of its surroundings: the environment of the
    process, the answer of the subscription endpoint, the secret store
    behind [Client.accessSecret], and the functions imported from modules
    outside [main.ts]. *)
Record World : Type := {
  (** [process.env.GITHUB_REPOSITORY] *)
  GITHUB_REPOSITORY : option string;
  (** the value of the environment variable behind [getInput(name)], the
      empty string when it is unset *)
  inputs : string -> string;
  (** [axios.get(url, { timeout })]: [None] when the promise resolves,
      the rejection otherwise *)
  axios_get : string -> Z -> option Js.Thrown;
  (** [parseBoolean] of [@google-github-actions/actions-utils] *)
  parseBoolean : string -> Js.Thrown + bool;
  (** [errorMessage] of [@google-github-actions/actions-utils] *)
  errorMessage : Js.Thrown -> string;
  (** [parseSecretsRefs] of [./reference] *)
  parseSecretsRefs : string -> Js.Thrown + list Reference;
  (** the result of [client.accessSecret(ref, encoding)] *)
  secret_store : Client -> Reference -> string -> Js.Thrown + string
}.

(** ** Effects *)

Inductive Event : Type :=
| AxiosGet (url : string) (timeout : Z)
| CoreError (msg : string)
| CoreInfo (msg : string)
| ProcessExit (code : Z)
| AccessSecret (client : Client) (ref : Reference) (encoding : string)
| SetSecret (line : string)
| SetOutput (name value : string)
| ExportVariable (name value : string)
| SetFailed (msg : string).

Inductive Outcome (A : Type) : Type :=
| Done (a : A)
| Threw (e : Js.Thrown)
| Exited (code : Z).

Arguments Done {A} a.
Arguments Threw {A} e.
Arguments Exited {A} code.

(** An action: the events it performs, in order, and how it ends. *)
Definition Act (A : Type) : Type := list Event * Outcome A.

Definition ret {A} (a : A) : Act A := ([], Done a).

Definition bind {A B} (m : Act A) (k : A -> Act B) : Act B :=
  match m with
  | (t, Done a) => let '(t', o) := k a in (t ++ t', o)
  | (t, Threw e) => (t, Threw e)
  | (t, Exited c) => (t, Exited c)
  end.

Definition emit (e : Event) : Act unit := ([e], Done tt).

Definition throw {A} (e : Js.Thrown) : Act A := ([], Threw e).

(** [try { m } catch (err) { h err }]; [process.exit] is not an exception
    and is not caught. *)
Definition try_catch {A} (m : Act A) (h : Js.Thrown -> Act A) : Act A :=
  match m with
  | (t, Threw e) => let '(t', o) := h e in (t ++ t', o)
  | _ => m
  end.

(** A call that either returns or throws, without an effect of its own. *)
Definition call {A} (r : Js.Thrown + A) : Act A :=
  match r with
  | inl e => throw e
  | inr a => ret a
  end.

Declare Scope act_scope.
Delimit Scope act_scope with act.
Notation "x <- m ; k" := (bind m (fun x => k))
  (at level 100, m at next level, right associativity) : act_scope.
Notation "m ;; k" := (bind m (fun _ => k))
  (at level 100, right associativity) : act_scope.
Local Open Scope act_scope.

(** [for (const x of xs) { body x }] and [xs.forEach(body)] *)
Fixpoint for_each {A} (xs : list A) (body : A -> Act unit) : Act unit :=
  match xs with
  | [] => ret tt
  | x :: rest => body x ;; for_each rest body
  end.

Definition trace {A} (m : Act A) : list Event := fst m.
Definition outcome {A} (m : Act A) : Outcome A := snd m.

(** ** [@actions/core] *)

(** [getInput(name, { required })]: the value is trimmed; a required input
    that is empty before trimming throws. *)
Definition getInput (w : World) (name : string) (required : bool) : Act string :=
  let val := inputs w name in
  if required && Js.is_empty val
  then throw (Js.Error ("Input required and not supplied: " +:+ name))
  else ret (Js.trim val).

Definition setSecret (line : string) : Act unit := emit (SetSecret line).
Definition setOutput (name value : string) : Act unit := emit (SetOutput name value).
Definition exportVariable (name value : string) : Act unit :=
  emit (ExportVariable name value).
Definition info (msg : string) : Act unit := emit (CoreInfo msg).
Definition error (msg : string) : Act unit := emit (CoreError msg).

(** [setFailed] sets [process.exitCode] to 1 and logs the message as an
    error; the model records both as one event, see [exit_status]. *)
Definition setFailed (msg : string) : Act unit := emit (SetFailed msg).

(** [process.exit(code)] ends the process on the spot. *)
Definition process_exit {A} (code : Z) : Act A := ([ProcessExit code], Exited code).

(** ** [main.ts] *)

(** The template literal renders an unset variable as [undefined]. *)
Definition API_URL (w : World) : string :=
  "https://agent.api.stepsecurity.io/v1/github/"
  +:+ default "undefined" (GITHUB_REPOSITORY w)
  +:+ "/actions/subscription".

Definition axios_get_act (w : World) (url : string) (timeout : Z) : Act unit :=
  emit (AxiosGet url timeout) ;;
  match axios_get w url timeout with
  | None => ret tt
  | Some err => throw err
  end.

(** [err.response?.status === 403] *)
Definition status_is (err : Js.Thrown) (code : Z) : bool :=
  match Js.response_status err with
  | Some s => s =? code
  | None => false
  end.

Definition validateSubscription (w : World) : Act unit :=
  try_catch
    (axios_get_act w (API_URL w) 3000)
    (fun err =>
       if Js.isAxiosError err && status_is err 403 then
         error "Subscription is not valid. Reach out to support@stepsecurity.io" ;;
         process_exit 1
       else
         info "Timeout or API not reachable. Continuing to next step.").

(** [client.accessSecret(ref, encoding)], awaited. *)
Definition accessSecret (w : World) (client : Client) (ref : Reference)
    (encoding : string) : Act string :=
  emit (AccessSecret client ref encoding) ;;
  call (secret_store w client ref encoding).

(** [line && line.length >= minMaskLength] *)
Definition should_mask (minMaskLength : Js.Number) (line : string) : bool :=
  Js.truthy line && Js.length_ge (String.length line) minMaskLength.

(** Lines 75-82: mask each line of a multiline secret. *)
Definition mask_lines (minMaskLength : Js.Number) (value : string) : Act unit :=
  for_each (Js.split_lines value)
    (fun line =>
       if should_mask minMaskLength line then setSecret line else ret tt).

(** The body of the loop, lines 71-88. *)
Definition access_and_export (w : World) (client : Client) (encoding : string)
    (minMaskLength : Js.Number) (exportEnvironment : bool) (ref : Reference)
    : Act unit :=
  value <- accessSecret w client ref encoding ;
  mask_lines minMaskLength value ;;
  setOutput (output ref) value ;;
  if exportEnvironment then exportVariable (output ref) value else ret tt.

(** Lines 55-89: read the inputs, parse the references, access and export
    each secret. *)
Definition access_and_export_all (w : World) : Act unit :=
  universe <- getInput w "universe" false ;
  secretsInput <- getInput w "secrets" true ;
  min_mask_length <- getInput w "min_mask_length" false ;
  let minMaskLength := Js.parseInt min_mask_length in
  export_to_environment <- getInput w "export_to_environment" false ;
  exportEnvironment <- call (parseBoolean w export_to_environment) ;
  encoding_input <- getInput w "encoding" false ;
  let encoding := Js.or_else encoding_input "utf8" in
  let client := {| universe := universe |} in
  secretsRefs <- call (parseSecretsRefs w secretsInput) ;
  for_each secretsRefs
    (access_and_export w client encoding minMaskLength exportEnvironment).

(** The body of the [try] block, lines 54-89. *)
Definition run_body (w : World) : Act unit :=
  validateSubscription w ;;
  access_and_export_all w.

Definition failure_prefix : string :=
  "step-security/get-secretmanager-secrets failed with: ".

Definition run (w : World) : Act unit :=
  try_catch (run_body w)
    (fun err => setFailed (failure_prefix +:+ errorMessage w err)).

(** ** What the runner sees of a finished run *)

Definition is_SetFailed (e : Event) : bool :=
  match e with SetFailed _ => true | _ => false end.

(** The exit code of the process: the argument of [process.exit] if it was
    called, otherwise [process.exitCode], which [setFailed] sets to 1.  A
    rejection that escapes [run] also ends the process with 1. *)
Definition exit_status {A} (m : Act A) : Z :=
  match outcome m with
  | Exited code => code
  | Threw _ => 1
  | Done _ => if existsb is_SetFailed (trace m) then 1 else 0
  end.

(** The runner keeps, for each output name, the value of the last
    [setOutput] call with that name. *)
Definition record_output (outs : gmap string string) (e : Event) : gmap string string :=
  match e with
  | SetOutput name value => <[name := value]> outs
  | _ => outs
  end.

Definition outputs (t : list Event) : gmap string string :=
  fold_left record_output t ∅.

(** The same for the environment variables exported to later steps. *)
Definition record_variable (vars : gmap string string) (e : Event) : gmap string string :=
  match e with
  | ExportVariable name value => <[name := value]> vars
  | _ => vars
  end.

Definition exported (t : list Event) : gmap string string :=
  fold_left record_variable t ∅.

(** ** Sample worlds *)

Module Sample.

Definition ref (loc out : string) : Reference :=
  {| locator := loc; output := out |}.

Definition three_refs : list Reference :=
  [ref "p/s/one" "ONE"; ref "p/s/two" "TWO"; ref "p/s/three" "THREE"].

(** Two references bound to the same output name. *)
Definition clashing_refs : list Reference :=
  [ref "p/s/one" "OUT"; ref "p/s/two" "OUT"].

(** The three-line value [a], [bb], [ccc] separated by line feeds. *)
Definition multiline : string :=
  "a" +:+ String Js.LF ("bb" +:+ String Js.LF "ccc").

Definition store (c : Client) (r : Reference) (enc : string) : Js.Thrown + string :=
  if String.eqb (locator r) "p/s/one" then inr multiline
  else if String.eqb (locator r) "p/s/two" then inr "second-value"
  else inr "third-value".

(** The same store, refusing the second secret. *)
Definition store_without_two (c : Client) (r : Reference) (enc : string)
    : Js.Thrown + string :=
  if String.eqb (locator r) "p/s/two" then inl (Js.Error "Permission denied")
  else store c r enc.

Definition bool_of (s : string) : Js.Thrown + bool :=
  if String.eqb s "true" then inr true
  else if String.eqb s "false" then inr false
  else if String.eqb s "" then inr false
  else inl (Js.Error "invalid boolean").

Definition input_table (min_len export : string) (name : string) : string :=
  if String.eqb name "secrets" then "p/s/one:ONE"
  else if String.eqb name "min_mask_length" then min_len
  else if String.eqb name "export_to_environment" then export
  else "".

Definition rejected_403 : Js.Thrown :=
  {| Js.message := "Request failed with status code 403";
     Js.isAxiosError := true;
     Js.response_status := Some 403 |}.

Definition timed_out : Js.Thrown :=
  {| Js.message := "timeout of 3000ms exceeded";
     Js.isAxiosError := true;
     Js.response_status := None |}.

Definition world (subscription : option Js.Thrown) (min_len export : string)
    (refs : list Reference)
    (store : Client -> Reference -> string -> Js.Thrown + string) : World :=
  {| GITHUB_REPOSITORY := Some "octo/repo";
     inputs := input_table min_len export;
     axios_get := fun _ _ => subscription;
     parseBoolean := bool_of;
     errorMessage := Js.message;
     parseSecretsRefs := fun _ => inr refs;
     secret_store := store |}.

End Sample.

(** ** Derived notions used in the statements *)

(** The values [run] computes from the inputs on lines 55-59. *)
Definition client_of (w : World) : Client :=
  {| universe := Js.trim (inputs w "universe") |}.

Definition min_mask_length_of (w : World) : Js.Number :=
  Js.parseInt (Js.trim (inputs w "min_mask_length")).

Definition encoding_of (w : World) : string :=
  Js.or_else (Js.trim (inputs w "encoding")) "utf8".

(** The pre-flight request is answered with an explicit 403. *)
Definition forbidden (w : World) : bool :=
  match axios_get w (API_URL w) 3000 with
  | Some err => Js.isAxiosError err && status_is err 403
  | None => false
  end.

(** Every input is accepted: [secrets] is supplied, [export_to_environment]
    parses to [exportEnvironment] and [secrets] parses to [refs]. *)
Record Configured (w : World) (exportEnvironment : bool) (refs : list Reference)
    : Prop := {
  cfg_secrets : Js.is_empty (inputs w "secrets") = false;
  cfg_export :
    parseBoolean w (Js.trim (inputs w "export_to_environment")) = inr exportEnvironment;
  cfg_refs : parseSecretsRefs w (Js.trim (inputs w "secrets")) = inr refs
}.

(** The store returns [v] for [r]. *)
Definition fetches (w : World) (r : Reference) (v : string) : Prop :=
  secret_store w (client_of w) r (encoding_of w) = inr v.

(** The store fails with [e] for [r]. *)
Definition fails (w : World) (r : Reference) (e : Js.Thrown) : Prop :=
  secret_store w (client_of w) r (encoding_of w) = inl e.

(** The lines of [value] that line 79 lets through. *)
Definition masked_lines (m : Js.Number) (value : string) : list string :=
  List.filter (should_mask m) (Js.split_lines value).

(** The events of one completed fetch-mask-publish cycle. *)
Definition cycle (w : World) (exportEnvironment : bool) (r : Reference) (v : string)
    : list Event :=
  AccessSecret (client_of w) r (encoding_of w)
  :: map SetSecret (masked_lines (min_mask_length_of w) v)
  ++ SetOutput (output r) v
  :: (if exportEnvironment then [ExportVariable (output r) v] else []).

Definition cycles (w : World) (exportEnvironment : bool) (refs : list Reference)
    (vals : list string) : list Event :=
  concat (zip_with (cycle w exportEnvironment) refs vals).

(** Projections of a trace. *)
Definition secrets_set (t : list Event) : list string :=
  omap (fun e => match e with SetSecret l => Some l | _ => None end) t.

Definition outputs_set (t : list Event) : list (string * string) :=
  omap (fun e => match e with SetOutput n v => Some (n, v) | _ => None end) t.

Definition variables_exported (t : list Event) : list (string * string) :=
  omap (fun e => match e with ExportVariable n v => Some (n, v) | _ => None end) t.

Definition refs_accessed (t : list Event) : list Reference :=
  omap (fun e => match e with AccessSecret _ r _ => Some r | _ => None end) t.

Definition failures (t : list Event) : list string :=
  omap (fun e => match e with SetFailed msg => Some msg | _ => None end) t.

(** [ev] publishes [value] under [name]. *)
Definition publishes (ev : Event) (name value : string) : Prop :=
  ev = SetOutput name value \/ ev = ExportVariable name value.

(** The loop of [run], with the values of lines 55-59 filled in. *)
Definition loop (w : World) (b : bool) (refs : list Reference) : Act unit :=
  for_each refs
    (access_and_export w (client_of w) (encoding_of w) (min_mask_length_of w) b).

Definition forbidden_message : string :=
  "Subscription is not valid. Reach out to support@stepsecurity.io".

Definition unreachable_message : string :=
  "Timeout or API not reachable. Continuing to next step.".

(** The events of a pre-flight check that lets the run continue. *)
Definition preflight (w : World) : list Event :=
  AxiosGet (API_URL w) 3000
  :: match axios_get w (API_URL w) 3000 with
     | Some _ => [CoreInfo unreachable_message]
     | None => []
     end.

(** *** Line breaks *)

Module Lines.
Import Js.

(** The separator matched at each line break, in order. *)
Fixpoint line_breaks (s : string) : list string :=
  match s with
  | EmptyString => []
  | String c rest =>
      if Ascii.eqb c CR then
        match rest with
        | String c2 rest2 =>
            if Ascii.eqb c2 LF then String CR (String LF "") :: line_breaks rest2
            else String CR "" :: line_breaks rest
        | EmptyString => String CR "" :: line_breaks rest
        end
      else if Ascii.eqb c LF then String LF "" :: line_breaks rest
      else line_breaks rest
  end.

(** [weave [l0; l1; ...] [s0; s1; ...]] is [l0 s0 l1 s1 ...]. *)
Fixpoint weave (lines seps : list string) : string :=
  match lines with
  | [] => ""
  | l :: ls =>
      match seps with
      | [] => l
      | sep :: seps' => l +:+ sep +:+ weave ls seps'
      end
  end.

Definition is_line_break (sep : string) : Prop :=
  sep = String CR (String LF "") \/ sep = String CR "" \/ sep = String LF "".

Fixpoint has_no_break (line : string) : Prop :=
  match line with
  | EmptyString => True
  | String c rest => c <> CR /\ c <> LF /\ has_no_break rest
  end.

(** The shape of [split_lines] on a non-empty string. *)
Inductive split_case (c : ascii) (rest : string) : Prop :=
| split_crlf rest2 :
    c = CR -> rest = String LF rest2 ->
    split_lines (String c rest) = "" :: split_lines rest2 ->
    line_breaks (String c rest) = String CR (String LF "") :: line_breaks rest2 ->
    split_case c rest
| split_cr :
    c = CR ->
    split_lines (String c rest) = "" :: split_lines rest ->
    line_breaks (String c rest) = String CR "" :: line_breaks rest ->
    split_case c rest
| split_lf :
    c = LF ->
    split_lines (String c rest) = "" :: split_lines rest ->
    line_breaks (String c rest) = String LF "" :: line_breaks rest ->
    split_case c rest
| split_char line lines :
    c <> CR -> c <> LF ->
    split_lines rest = line :: lines ->
    split_lines (String c rest) = String c line :: lines ->
    line_breaks (String c rest) = line_breaks rest ->
    split_case c rest.

End Lines.

Definition missing_secrets : Js.Thrown :=
  Js.Error ("Input required and not supplied: " +:+ "secrets").

(** A run that fails while reading its inputs or parsing the references. *)
Definition rejected_run (w : World) (e : Js.Thrown) : Act unit :=
  (preflight w ++ [SetFailed (failure_prefix +:+ errorMessage w e)], Done tt).

Inductive RunCase (w : World) : Prop :=
| run_case_forbidden :
    forbidden w = true ->
    RunCase w
| run_case_missing_secrets :
    forbidden w = false ->
    Js.is_empty (inputs w "secrets") = true ->
    RunCase w
| run_case_invalid_boolean e :
    forbidden w = false ->
    Js.is_empty (inputs w "secrets") = false ->
    parseBoolean w (Js.trim (inputs w "export_to_environment")) = inl e ->
    RunCase w
| run_case_parse_error b e :
    forbidden w = false ->
    Js.is_empty (inputs w "secrets") = false ->
    parseBoolean w (Js.trim (inputs w "export_to_environment")) = inr b ->
    parseSecretsRefs w (Js.trim (inputs w "secrets")) = inl e ->
    RunCase w
| run_case_completes b refs vals :
    forbidden w = false ->
    Configured w b refs ->
    Forall2 (fetches w) refs vals ->
    RunCase w
| run_case_stops b before vals r e after :
    forbidden w = false ->
    Configured w b (before ++ r :: after) ->
    Forall2 (fetches w) before vals ->
    fails w r e ->
    RunCase w.

Definition is_publish (e : Event) : bool :=
  match e with
  | SetOutput _ _ | ExportVariable _ _ => true
  | _ => false
  end.

(** What precedes an [exportVariable] in its cycle, after the masking. *)
Definition published_first (ev : Event) (name v : string) : list Event :=
  match ev with
  | ExportVariable _ _ => [SetOutput name v]
  | _ => []
  end.

(** Each publishing event of [t] closes a block that starts with the fetch
    of the published value and continues with all its masking calls. *)
Definition Guarded (w : World) (t : list Event) : Prop :=
  forall pre ev post name v,
    t = pre ++ ev :: post ->
    publishes ev name v ->
    exists before r,
      output r = name /\ fetches w r v /\
      pre = before
            ++ AccessSecret (client_of w) r (encoding_of w)
            :: map SetSecret (masked_lines (min_mask_length_of w) v)
            ++ published_first ev name v.

Definition published (r : Reference) (v : string) : string * string := (output r, v).

(** The outputs the runner holds after a list of [setOutput] calls. *)
Definition store_all (kvs : list (string * string)) : gmap string string :=
  fold_left (fun m kv => <[kv.1 := kv.2]> m) kvs ∅.

(** The same world with another answer from the subscription endpoint. *)
Definition with_subscription (w : World) (answer : option Js.Thrown) : World :=
  {| GITHUB_REPOSITORY := GITHUB_REPOSITORY w;
     inputs := inputs w;
     axios_get := fun _ _ => answer;
     parseBoolean := parseBoolean w;
     errorMessage := errorMessage w;
     parseSecretsRefs := parseSecretsRefs w;
     secret_store := secret_store w |}.

(** [run] without line 54. *)
Definition run_without_preflight (w : World) : Act unit :=
  try_catch (access_and_export_all w)
    (fun err => setFailed (failure_prefix +:+ errorMessage w err)).

(** The fetched references are a prefix of the parsed list: all of it, or
    the part before the first reference whose fetch fails. *)
Definition fetched_prefix (w : World) (refs done : list Reference)
    (vals : list string) (rest : list Reference) : Prop :=
  refs = done ++ rest
  /\ Forall2 (fetches w) done vals
  /\ (rest = [] \/ exists r e after, rest = r :: after /\ fails w r e).

(** The fetches and [setOutput] calls of a trace, in order. *)
Definition steps (t : list Event) : list (Reference + string * string) :=
  omap (fun e =>
          match e with
          | AccessSecret _ r _ => Some (inl r)
          | SetOutput n v => Some (inr (n, v))
          | _ => None
          end) t.

(** The same world with the input [name] set to [value]. *)
Definition with_input (w : World) (name value : string) : World :=
  {| GITHUB_REPOSITORY := GITHUB_REPOSITORY w;
     inputs := fun n => if String.eqb n name then value else inputs w n;
     axios_get := axios_get w;
     parseBoolean := parseBoolean w;
     errorMessage := errorMessage w;
     parseSecretsRefs := parseSecretsRefs w;
     secret_store := secret_store w |}.

(** How a run ends, as the runner reports it: the outcome, the exit code
    and the failure messages. *)
Definition verdict (m : Act unit) : Outcome unit * Z * list string :=
  (outcome m, exit_status m, failures (trace m)).

(** ** Further projections of a trace *)

(** The HTTP requests of a trace, with their time limits. *)
Definition requests (t : list Event) : list (string * Z) :=
  omap (fun e => match e with AxiosGet url ms => Some (url, ms) | _ => None end) t.

(** The lines a run writes to the log: those of [info] and [error], and the
    error line that [setFailed] writes with its message. *)
Definition log_lines (t : list Event) : list string :=
  omap (fun e =>
          match e with
          | CoreInfo msg | CoreError msg | SetFailed msg => Some msg
          | _ => None
          end) t.

(** The line the pre-flight check writes: the support message on a 403, the
    notice on any other failure of the request, nothing on success. *)
Definition preflight_lines (w : World) : list string :=
  if forbidden w then [forbidden_message]
  else match axios_get w (API_URL w) 3000 with
       | Some _ => [unreachable_message]
       | None => []
       end.

Definition is_SetSecret (e : Event) : bool :=
  match e with SetSecret _ => true | _ => false end.

(** A trace without its [setSecret] calls. *)
Definition unmasked (t : list Event) : list Event :=
  List.filter (fun e => negb (is_SetSecret e)) t.

(** The events the loop of [run] can perform. *)
Definition is_cycle_event (e : Event) : bool :=
  match e with
  | AccessSecret _ _ _ | SetSecret _ | SetOutput _ _ | ExportVariable _ _ => true
  | _ => false
  end.

(** A cycle without its [setSecret] calls. *)
Definition publication (w : World) (exportEnvironment : bool) (r : Reference)
    (v : string) : list Event :=
  AccessSecret (client_of w) r (encoding_of w)
  :: SetOutput (output r) v
  :: (if exportEnvironment then [ExportVariable (output r) v] else []).

(** [lines.join(sep)] *)
Fixpoint join_lines (sep : string) (lines : list string) : string :=
  match lines with
  | [] => ""
  | [line] => line
  | line :: rest => line +:+ sep +:+ join_lines sep rest
  end.

Definition starts_with_LF (s : string) : bool :=
  match s with
  | String c _ => Ascii.eqb c Js.LF
  | EmptyString => false
  end.

(** * Proofs *)

(** ** The built-ins on sample inputs *)

Example split_lines_mixed :
  Js.split_lines
    ("a" +:+ String Js.CR (String Js.LF ("bb" +:+ String Js.LF (String Js.CR "ccc"))))
  = ["a"; "bb"; ""; "ccc"].
Proof. reflexivity. Qed.

Example split_lines_of_empty : Js.split_lines "" = [""].
Proof. reflexivity. Qed.

Example trim_both_ends : Js.trim ("  a b " +:+ String Js.LF "") = "a b".
Proof. reflexivity. Qed.

Example parseInt_samples :
  [Js.parseInt ""; Js.parseInt "abc"; Js.parseInt " -12px"; Js.parseInt "0x1F";
   Js.parseInt "4"; Js.parseInt "-"; Js.parseInt "0x"; Js.parseInt "4.9"]
  = [Js.NaN; Js.NaN; Js.Num (-12); Js.Num 31; Js.Num 4; Js.NaN; Js.NaN; Js.Num 4].
Proof. reflexivity. Qed.

Example run_three_secrets :
  run (Sample.world None "2" "true" Sample.three_refs Sample.store_without_two)
  = ([AxiosGet "https://agent.api.stepsecurity.io/v1/github/octo/repo/actions/subscription" 3000;
      AccessSecret {| universe := "" |} (Sample.ref "p/s/one" "ONE") "utf8";
      SetSecret "bb"; SetSecret "ccc";
      SetOutput "ONE" Sample.multiline;
      ExportVariable "ONE" Sample.multiline;
      AccessSecret {| universe := "" |} (Sample.ref "p/s/two" "TWO") "utf8";
      SetFailed "step-security/get-secretmanager-secrets failed with: Permission denied"],
     Done tt).
Proof. reflexivity. Qed.

(** ** The action monad *)

Section ActLaws.
Context {A B : Type}.
Implicit Types (k : A -> Act B) (t : list Event).

Lemma bind_done t a k : bind (t, Done a) k = (t ++ trace (k a), outcome (k a)).
Proof. simpl. by destruct (k a). Qed.

Lemma ret_bind a k : bind (ret a) k = k a.
Proof. unfold bind, ret. by destruct (k a). Qed.

Lemma throw_bind e k : bind (throw e) k = throw e.
Proof. done. Qed.

End ActLaws.

Lemma try_catch_threw {A} (t : list Event) (e : Js.Thrown) (h : Js.Thrown -> Act A) :
  try_catch (t ++ trace (@throw A e), outcome (@throw A e)) h
  = (t ++ trace (h e), outcome (h e)).
Proof. simpl. rewrite app_nil_r. by destruct (h e). Qed.

Lemma act_eta {A} (m : Act A) : m = (trace m, outcome m).
Proof. by destruct m. Qed.

(** ** The loop body and the loop *)

Lemma for_each_mask (f : string -> bool) (lines : list string) :
  for_each lines (fun line => if f line then setSecret line else ret tt)
  = (map SetSecret (List.filter f lines), Done tt).
Proof.
  induction lines as [| l ls IH]; [done |].
  simpl. rewrite IH. by destruct (f l).
Qed.

Lemma mask_lines_eq (m : Js.Number) (value : string) :
  mask_lines m value = (map SetSecret (masked_lines m value), Done tt).
Proof. apply for_each_mask. Qed.

Lemma access_and_export_value (w : World) cl enc m b r v :
  secret_store w cl r enc = inr v ->
  access_and_export w cl enc m b r
  = (AccessSecret cl r enc
     :: map SetSecret (masked_lines m v)
     ++ SetOutput (output r) v
     :: (if b then [ExportVariable (output r) v] else []),
     Done tt).
Proof.
  intros Hv. unfold access_and_export, accessSecret. rewrite Hv. simpl.
  rewrite mask_lines_eq. by destruct b.
Qed.

Lemma access_and_export_error (w : World) cl enc m b r e :
  secret_store w cl r enc = inl e ->
  access_and_export w cl enc m b r = ([AccessSecret cl r enc], Threw e).
Proof.
  intros He. unfold access_and_export, accessSecret. by rewrite He.
Qed.

Lemma loop_cons_value (w : World) b r v refs :
  fetches w r v ->
  loop w b (r :: refs)
  = (cycle w b r v ++ trace (loop w b refs), outcome (loop w b refs)).
Proof.
  intros Hv. unfold loop. cbn [for_each].
  by rewrite (access_and_export_value _ _ _ _ _ _ _ Hv), bind_done.
Qed.

Lemma loop_cons_error (w : World) b r e refs :
  fails w r e ->
  loop w b (r :: refs) = ([AccessSecret (client_of w) r (encoding_of w)], Threw e).
Proof.
  intros He. unfold loop. cbn [for_each].
  by rewrite (access_and_export_error _ _ _ _ _ _ _ He).
Qed.

Lemma cycles_cons (w : World) b r v refs vals :
  cycles w b (r :: refs) (v :: vals) = cycle w b r v ++ cycles w b refs vals.
Proof. done. Qed.

Lemma loop_completes (w : World) b refs vals :
  Forall2 (fetches w) refs vals ->
  loop w b refs = (cycles w b refs vals, Done tt).
Proof.
  induction 1 as [| r v refs vals Hv _ IH]; [done |].
  rewrite (loop_cons_value _ _ _ _ _ Hv), IH, cycles_cons. done.
Qed.

Lemma loop_stops (w : World) b before vals r e after :
  Forall2 (fetches w) before vals ->
  fails w r e ->
  loop w b (before ++ r :: after)
  = (cycles w b before vals ++ [AccessSecret (client_of w) r (encoding_of w)],
     Threw e).
Proof.
  intros Hvals He.
  induction Hvals as [| r' v refs vals' Hv _ IH].
  - by apply loop_cons_error.
  - rewrite <- app_comm_cons.
    rewrite (loop_cons_value _ _ _ _ _ Hv), IH, cycles_cons.
    cbn [trace outcome fst snd]. by rewrite app_assoc.
Qed.

(** Every list of references splits into the references that are fetched
    and, unless all are, the first one that fails. *)
Lemma fetch_prefix (w : World) (refs : list Reference) :
  exists before vals,
    Forall2 (fetches w) before vals /\
    (refs = before \/
     exists r e after, refs = before ++ r :: after /\ fails w r e).
Proof.
  induction refs as [| r refs (before & vals & Hvals & Hrest)].
  - exists [], []. split; [constructor | by left].
  - destruct (secret_store w (client_of w) r (encoding_of w)) as [e | v] eqn:Hr.
    + exists [], []. split; [constructor |]. right. by exists r, e, refs.
    + exists (r :: before), (v :: vals). split; [by constructor |].
      destruct Hrest as [-> | (r' & e & after & -> & He)]; [by left |].
      right. by exists r', e, after.
Qed.

(** ** The pre-flight check *)

Lemma validate_forbidden (w : World) :
  forbidden w = true ->
  validateSubscription w
  = ([AxiosGet (API_URL w) 3000; CoreError forbidden_message; ProcessExit 1],
     Exited 1).
Proof.
  unfold forbidden, validateSubscription, axios_get_act. intros H.
  destruct (axios_get w (API_URL w) 3000) as [err |]; [| done].
  simpl. by rewrite H.
Qed.

Lemma validate_passes (w : World) :
  forbidden w = false ->
  validateSubscription w = (preflight w, Done tt).
Proof.
  unfold forbidden, validateSubscription, axios_get_act, preflight. intros H.
  destruct (axios_get w (API_URL w) 3000) as [err |]; [| done].
  simpl. by rewrite H.
Qed.

(** ** The whole run *)

Lemma run_body_configured (w : World) b refs :
  forbidden w = false ->
  Configured w b refs ->
  run_body w = (preflight w ++ trace (loop w b refs), outcome (loop w b refs)).
Proof.
  intros Hsub [Hsec Hexp Hrefs]. unfold run_body.
  rewrite (validate_passes _ Hsub), bind_done.
  unfold access_and_export_all, getInput. rewrite Hsec. cbn [andb].
  rewrite !ret_bind, Hexp. cbn [call].
  rewrite !ret_bind, Hrefs. cbn [call].
  by rewrite ret_bind.
Qed.

Lemma run_forbidden (w : World) :
  forbidden w = true ->
  run w
  = ([AxiosGet (API_URL w) 3000; CoreError forbidden_message; ProcessExit 1],
     Exited 1).
Proof.
  intros H. unfold run, run_body. by rewrite (validate_forbidden _ H).
Qed.

Lemma run_completes (w : World) b refs vals :
  forbidden w = false ->
  Configured w b refs ->
  Forall2 (fetches w) refs vals ->
  run w = (preflight w ++ cycles w b refs vals, Done tt).
Proof.
  intros Hsub Hcfg Hvals. unfold run.
  rewrite (run_body_configured _ _ _ Hsub Hcfg), (loop_completes _ _ _ _ Hvals).
  done.
Qed.

Lemma run_stops (w : World) b before vals r e after :
  forbidden w = false ->
  Configured w b (before ++ r :: after) ->
  Forall2 (fetches w) before vals ->
  fails w r e ->
  run w
  = (preflight w ++ cycles w b before vals
     ++ [AccessSecret (client_of w) r (encoding_of w);
         SetFailed (failure_prefix +:+ errorMessage w e)],
     Done tt).
Proof.
  intros Hsub Hcfg Hvals He. unfold run.
  rewrite (run_body_configured _ _ _ Hsub Hcfg), (loop_stops _ _ _ _ _ _ _ Hvals He).
  simpl. by rewrite <- !app_assoc.
Qed.

(** ** Line splitting *)

Module SplitFacts.
Import Js Lines.

Lemma string_length_ind (P : string -> Prop) :
  (forall s, (forall s', (String.length s' < String.length s)%nat -> P s') -> P s) ->
  forall s, P s.
Proof.
  intros step s.
  assert (H : forall n s', (String.length s' < n)%nat -> P s').
  { induction n as [| n IH]; intros s' Hlt; [lia |].
    apply step. intros s'' Hlt'. apply IH. lia. }
  apply (H (S (String.length s))). lia.
Qed.

Lemma split_lines_nonempty (s : string) : split_lines s <> [].
Proof.
  destruct s as [| c rest]; [done |]. simpl.
  destruct (Ascii.eqb c CR).
  - destruct rest as [| c2 rest2]; [done |]. by destruct (Ascii.eqb c2 LF).
  - destruct (Ascii.eqb c LF); [done |]. by destruct (split_lines rest).
Qed.

Lemma split_cases (c : ascii) (rest : string) : split_case c rest.
Proof.
  destruct (Ascii.eqb c CR) eqn:Hcr.
  - apply Ascii.eqb_eq in Hcr.
    destruct rest as [| c2 rest2].
    + apply split_cr; [done | |]; simpl; by rewrite Hcr.
    + destruct (Ascii.eqb c2 LF) eqn:Hlf.
      * apply Ascii.eqb_eq in Hlf. subst. by eapply split_crlf.
      * apply split_cr; [done | |]; simpl; subst c; simpl; by rewrite Hlf.
  - destruct (Ascii.eqb c LF) eqn:Hlf.
    + apply Ascii.eqb_eq in Hlf.
      apply split_lf; [done | |]; simpl; by rewrite Hcr, Hlf.
    + apply Ascii.eqb_neq in Hcr, Hlf.
      destruct (split_lines rest) as [| line lines] eqn:Hrest.
      { by apply split_lines_nonempty in Hrest. }
      apply (split_char _ _ line lines); try done; simpl.
      * apply Ascii.eqb_neq in Hcr, Hlf. by rewrite Hcr, Hlf, Hrest.
      * apply Ascii.eqb_neq in Hcr, Hlf. by rewrite Hcr, Hlf.
Qed.

Lemma split_lines_length (s : string) :
  length (split_lines s) = S (length (line_breaks s)).
Proof.
  induction s as [s IH] using string_length_ind.
  destruct s as [| c rest]; [done |].
  destruct (split_cases c rest) as [rest2 _ -> -> -> | _ -> -> | _ -> -> | line lines _ _ Hrest -> ->];
    simpl; try (rewrite IH; [done | simpl; lia]).
  rewrite <- (IH rest), Hrest by (simpl; lia). done.
Qed.

Lemma weave_split_lines (s : string) :
  weave (split_lines s) (line_breaks s) = s.
Proof.
  induction s as [s IH] using string_length_ind.
  destruct s as [| c rest]; [done |].
  destruct (split_cases c rest) as [rest2 -> -> -> -> | -> -> -> | -> -> -> | line lines _ _ Hrest -> ->].
  - simpl. rewrite IH; [done | simpl; lia].
  - simpl. rewrite IH; [done | simpl; lia].
  - simpl. rewrite IH; [done | simpl; lia].
  - rewrite <- (IH rest) at 2 by (simpl; lia). rewrite Hrest.
    simpl. by destruct (line_breaks rest).
Qed.

Lemma line_breaks_are_breaks (s : string) :
  Forall is_line_break (line_breaks s).
Proof.
  induction s as [s IH] using string_length_ind.
  destruct s as [| c rest]; [constructor |].
  destruct (split_cases c rest) as [rest2 _ -> _ -> | _ _ -> | _ _ -> | line lines _ _ _ _ ->].
  - constructor; [by left | apply IH; simpl; lia].
  - constructor; [by right; left | apply IH; simpl; lia].
  - constructor; [by right; right | apply IH; simpl; lia].
  - apply IH. simpl; lia.
Qed.

Lemma split_lines_no_break (s : string) :
  Forall has_no_break (split_lines s).
Proof.
  induction s as [s IH] using string_length_ind.
  destruct s as [| c rest]; [by repeat constructor |].
  destruct (split_cases c rest) as [rest2 _ -> -> _ | _ -> _ | _ -> _ | line lines Hcr Hlf Hrest -> _].
  - constructor; [done | apply IH; simpl; lia].
  - constructor; [done | apply IH; simpl; lia].
  - constructor; [done | apply IH; simpl; lia].
  - assert (H : Forall has_no_break (line :: lines)).
    { rewrite <- Hrest. apply IH. simpl; lia. }
    inversion H; subst. constructor; [done | done].
Qed.

End SplitFacts.

(** ** Projections of traces *)

Lemma secrets_set_app t1 t2 : secrets_set (t1 ++ t2) = secrets_set t1 ++ secrets_set t2.
Proof. apply omap_app. Qed.

Lemma outputs_set_app t1 t2 : outputs_set (t1 ++ t2) = outputs_set t1 ++ outputs_set t2.
Proof. apply omap_app. Qed.

Lemma variables_exported_app t1 t2 :
  variables_exported (t1 ++ t2) = variables_exported t1 ++ variables_exported t2.
Proof. apply omap_app. Qed.

Lemma refs_accessed_app t1 t2 :
  refs_accessed (t1 ++ t2) = refs_accessed t1 ++ refs_accessed t2.
Proof. apply omap_app. Qed.

Lemma failures_app t1 t2 : failures (t1 ++ t2) = failures t1 ++ failures t2.
Proof. apply omap_app. Qed.

Lemma secrets_set_masks (ls : list string) : secrets_set (map SetSecret ls) = ls.
Proof. induction ls as [| l ls IH]; [done |]. simpl. by f_equal. Qed.

Lemma outputs_set_masks (ls : list string) : outputs_set (map SetSecret ls) = [].
Proof. by induction ls. Qed.

Lemma variables_exported_masks (ls : list string) :
  variables_exported (map SetSecret ls) = [].
Proof. by induction ls. Qed.

Lemma refs_accessed_masks (ls : list string) : refs_accessed (map SetSecret ls) = [].
Proof. by induction ls. Qed.

Lemma failures_masks (ls : list string) : failures (map SetSecret ls) = [].
Proof. by induction ls. Qed.

Lemma In_secrets_set (t : list Event) (l : string) :
  In (SetSecret l) t <-> In l (secrets_set t).
Proof.
  induction t as [| e t IH]; [done |].
  destruct e; simpl; rewrite <- ?IH; split; intros H;
    try (destruct H as [H | H]; [discriminate H | done]); try (by right).
  - destruct H as [[= ->] | H]; [by left | by right].
  - destruct H as [-> | H]; [by left | by right].
Qed.

Lemma should_mask_num (n : Z) (l : string) :
  should_mask (Js.Num n) l = true <-> l <> "" /\ n <= Z.of_nat (String.length l).
Proof.
  unfold should_mask, Js.truthy, Js.length_ge.
  rewrite andb_true_iff, negb_true_iff, Z.leb_le.
  destruct l; simpl; split; intros [H1 H2]; split; try done.
Qed.

Lemma should_mask_NaN (l : string) : should_mask Js.NaN l = false.
Proof. unfold should_mask. apply andb_false_r. Qed.

Lemma masked_lines_NaN (v : string) : masked_lines Js.NaN v = [].
Proof.
  unfold masked_lines.
  induction (Js.split_lines v) as [| l ls IH]; [done |].
  simpl. by rewrite should_mask_NaN.
Qed.

(** ** The masking policy *)

(** C1.  Whatever value the store returns and whatever integer the minimum
    mask length is, the loop body calls [setSecret] on exactly the lines of
    the value that are non-empty and at least that long, in order and
    nothing else; the lines are the pieces of the value between its line
    breaks (CR LF, CR or LF), none of which contains a CR or an LF.  With
    the value [a], [bb], [ccc] on three lines and minimum 2, the masked
    lines are [bb] and [ccc]. *)
Theorem C1_mask_each_long_line (w : World) (cl : Client) (enc : string) (n : Z)
    (b : bool) (r : Reference) (v : string) :
  secret_store w cl r enc = inr v ->
  let t := trace (access_and_export w cl enc (Js.Num n) b r) in
  secrets_set t
  = List.filter
      (fun line => negb (Js.is_empty line) && (n <=? Z.of_nat (String.length line)))
      (Js.split_lines v)
  /\ (forall line,
        In (SetSecret line) t <->
        In line (Js.split_lines v) /\ line <> "" /\ n <= Z.of_nat (String.length line))
  /\ Lines.weave (Js.split_lines v) (Lines.line_breaks v) = v
  /\ length (Js.split_lines v) = S (length (Lines.line_breaks v))
  /\ Forall Lines.is_line_break (Lines.line_breaks v)
  /\ Forall Lines.has_no_break (Js.split_lines v)
  /\ secrets_set (trace (mask_lines (Js.Num 2) Sample.multiline)) = ["bb"; "ccc"].
Proof.
  intros Hv t.
  assert (Ht : secrets_set t = masked_lines (Js.Num n) v).
  { subst t. rewrite (access_and_export_value _ _ _ _ _ _ _ Hv).
    cbn [trace fst]. change (?e :: ?l ++ ?k) with ([e] ++ l ++ k).
    rewrite !secrets_set_app, secrets_set_masks. simpl.
    destruct b; simpl; by rewrite app_nil_r. }
  split; [by rewrite Ht |].
  split.
  { intros line. rewrite In_secrets_set, Ht. unfold masked_lines.
    rewrite filter_In, should_mask_num. tauto. }
  split; [apply SplitFacts.weave_split_lines |].
  split; [apply SplitFacts.split_lines_length |].
  split; [apply SplitFacts.line_breaks_are_breaks |].
  split; [apply SplitFacts.split_lines_no_break |].
  reflexivity.
Qed.

Lemma C1_mask_each_long_line_witness :
  let w := Sample.world None "2" "false" Sample.three_refs Sample.store in
  let r := Sample.ref "p/s/one" "ONE" in
  secret_store w (client_of w) r "utf8" = inr Sample.multiline
  /\ secrets_set
       (trace (access_and_export w (client_of w) "utf8" (Js.Num 2) false r))
     = ["bb"; "ccc"].
Proof.
  intros w r. split; [reflexivity |].
  rewrite (proj1 (C1_mask_each_long_line w (client_of w) "utf8" 2 false r
                    Sample.multiline eq_refl)).
  reflexivity.
Defined.

(** ** Every run, case by case *)

Lemma run_missing_secrets (w : World) :
  forbidden w = false ->
  Js.is_empty (inputs w "secrets") = true ->
  run w = rejected_run w missing_secrets.
Proof.
  intros Hsub Hsec.
  unfold run, run_body. rewrite (validate_passes _ Hsub), bind_done.
  unfold access_and_export_all, getInput. rewrite Hsec. cbn [andb].
  by rewrite !ret_bind, throw_bind, try_catch_threw.
Qed.

Lemma run_invalid_boolean (w : World) e :
  forbidden w = false ->
  Js.is_empty (inputs w "secrets") = false ->
  parseBoolean w (Js.trim (inputs w "export_to_environment")) = inl e ->
  run w = rejected_run w e.
Proof.
  intros Hsub Hsec Hexp.
  unfold run, run_body. rewrite (validate_passes _ Hsub), bind_done.
  unfold access_and_export_all, getInput. rewrite Hsec. cbn [andb].
  rewrite !ret_bind, Hexp. cbn [call].
  by rewrite throw_bind, try_catch_threw.
Qed.

Lemma run_parse_error (w : World) b e :
  forbidden w = false ->
  Js.is_empty (inputs w "secrets") = false ->
  parseBoolean w (Js.trim (inputs w "export_to_environment")) = inr b ->
  parseSecretsRefs w (Js.trim (inputs w "secrets")) = inl e ->
  run w = rejected_run w e.
Proof.
  intros Hsub Hsec Hexp Hrefs.
  unfold run, run_body. rewrite (validate_passes _ Hsub), bind_done.
  unfold access_and_export_all, getInput. rewrite Hsec. cbn [andb].
  rewrite !ret_bind, Hexp. cbn [call]. rewrite !ret_bind, Hrefs. cbn [call].
  by rewrite throw_bind, try_catch_threw.
Qed.

Lemma run_cases (w : World) : RunCase w.
Proof.
  destruct (forbidden w) eqn:Hsub.
  { by apply run_case_forbidden. }
  destruct (Js.is_empty (inputs w "secrets")) eqn:Hsec.
  { by apply run_case_missing_secrets. }
  destruct (parseBoolean w (Js.trim (inputs w "export_to_environment")))
    as [e | b] eqn:Hexp.
  { by eapply run_case_invalid_boolean. }
  destruct (parseSecretsRefs w (Js.trim (inputs w "secrets"))) as [e | refs] eqn:Hrefs.
  { by eapply run_case_parse_error. }
  assert (Hcfg : Configured w b refs) by done.
  destruct (fetch_prefix w refs)
    as (before & vals & Hvals & [-> | (r & e & after & -> & He)]).
  - by eapply run_case_completes.
  - by eapply run_case_stops.
Qed.

(** ** Masking comes first *)

Lemma publishes_is_publish ev name v : publishes ev name v -> is_publish ev = true.
Proof. by intros [-> | ->]. Qed.

Lemma guarded_quiet (w : World) (t : list Event) :
  forallb (fun e => negb (is_publish e)) t = true -> Guarded w t.
Proof.
  intros Hq pre ev post name v -> Hev.
  rewrite forallb_app in Hq. apply andb_true_iff in Hq as [_ Hq].
  simpl in Hq. by rewrite (publishes_is_publish _ _ _ Hev) in Hq.
Qed.

Lemma guarded_app (w : World) (t1 t2 : list Event) :
  Guarded w t1 -> Guarded w t2 -> Guarded w (t1 ++ t2).
Proof.
  intros H1 H2 pre ev post name v Heq Hev.
  symmetry in Heq. apply app_eq_app in Heq as [l [[-> Hl] | [-> Hl]]].
  - destruct (H2 l ev post name v Hl Hev) as (before & r & Hr & Hv & ->).
    exists (t1 ++ before), r. by rewrite <- app_assoc.
  - destruct l as [| e l].
    + simpl in Hl. subst t2.
      destruct (H2 [] ev post name v eq_refl Hev) as (before & r & _ & _ & Habs).
      by destruct before.
    + injection Hl as <- ->.
      by apply (H1 pre ev l name v) in Hev.
Qed.

Lemma split_after_masks (ms : list string) pre ev post rest :
  pre ++ ev :: post = map SetSecret ms ++ rest ->
  is_publish ev = true ->
  exists pre', pre = map SetSecret ms ++ pre' /\ pre' ++ ev :: post = rest.
Proof.
  revert pre. induction ms as [| m ms IH]; intros pre Heq Hev; [by exists pre |].
  destruct pre as [| e pre]; simpl in Heq.
  - injection Heq as -> _. discriminate Hev.
  - injection Heq as -> Heq. destruct (IH _ Heq Hev) as (pre' & -> & Hrest).
    by exists pre'.
Qed.

Lemma guarded_cycle (w : World) b r v : fetches w r v -> Guarded w (cycle w b r v).
Proof.
  intros Hv pre ev post name v' Heq Hev.
  pose proof (publishes_is_publish _ _ _ Hev) as Hpub.
  unfold cycle in Heq. destruct pre as [| e pre]; simpl in Heq.
  { injection Heq as <- _. discriminate Hpub. }
  injection Heq as <- Heq. symmetry in Heq.
  destruct (split_after_masks _ _ _ _ _ Heq Hpub) as (pre' & -> & Hrest).
  destruct pre' as [| e pre']; simpl in Hrest.
  - injection Hrest as -> _.
    destruct Hev as [[= <- <-] | [=]].
    by exists [], r.
  - injection Hrest as -> Hrest. destruct b; [| by destruct pre'].
    destruct pre' as [| e pre']; [| by destruct pre'].
    injection Hrest as -> _.
    destruct Hev as [[=] | [= <- <-]].
    by exists [], r.
Qed.

Lemma guarded_cycles (w : World) b refs vals :
  Forall2 (fetches w) refs vals -> Guarded w (cycles w b refs vals).
Proof.
  induction 1 as [| r v refs vals Hv _ IH]; [by apply guarded_quiet |].
  rewrite cycles_cons. auto using guarded_app, guarded_cycle.
Qed.

Lemma preflight_quiet (w : World) :
  forallb (fun e => negb (is_publish e)) (preflight w) = true.
Proof. unfold preflight. by destruct (axios_get w (API_URL w) 3000). Qed.

Lemma rejected_run_quiet (w : World) e :
  forallb (fun e => negb (is_publish e)) (trace (rejected_run w e)) = true.
Proof. cbn [rejected_run trace fst]. by rewrite forallb_app, preflight_quiet. Qed.

Lemma run_guarded (w : World) : Guarded w (trace (run w)).
Proof.
  destruct (run_cases w)
    as [Hsub | Hsub Hsec | e Hsub Hsec Hexp | b e Hsub Hsec Hexp Hrefs
        | b refs vals Hsub Hcfg Hvals | b before vals r e after Hsub Hcfg Hvals He].
  - rewrite (run_forbidden _ Hsub). by apply guarded_quiet.
  - rewrite (run_missing_secrets _ Hsub Hsec). apply guarded_quiet, rejected_run_quiet.
  - rewrite (run_invalid_boolean _ _ Hsub Hsec Hexp).
    apply guarded_quiet, rejected_run_quiet.
  - rewrite (run_parse_error _ _ _ Hsub Hsec Hexp Hrefs).
    apply guarded_quiet, rejected_run_quiet.
  - rewrite (run_completes _ _ _ _ Hsub Hcfg Hvals). cbn [trace fst].
    apply guarded_app; [apply guarded_quiet, preflight_quiet |].
    by apply guarded_cycles.
  - rewrite (run_stops _ _ _ _ _ _ _ Hsub Hcfg Hvals He). cbn [trace fst].
    apply guarded_app; [apply guarded_quiet, preflight_quiet |].
    apply guarded_app; [by apply guarded_cycles | by apply guarded_quiet].
Qed.

(** C2.  In the trace of any run, whenever a value is published ([setOutput]
    or [exportVariable]), the events just before it are the fetch of that
    value for a reference with that output name, then the [setSecret] calls
    for all the lines of the value that qualify for masking (then, for
    [exportVariable], the [setOutput] of the same value).  So each
    qualifying line has been registered before the value is published and
    no masking call of the cycle comes after the publication. *)
Theorem C2_masking_precedes_publication (w : World) (pre post : list Event)
    (ev : Event) (name v : string) :
  trace (run w) = pre ++ ev :: post ->
  publishes ev name v ->
  (exists before r,
      output r = name /\ fetches w r v /\
      pre = before
            ++ AccessSecret (client_of w) r (encoding_of w)
            :: map SetSecret (masked_lines (min_mask_length_of w) v)
            ++ published_first ev name v)
  /\ (forall line,
        In line (Js.split_lines v) ->
        should_mask (min_mask_length_of w) line = true ->
        In (SetSecret line) pre).
Proof.
  intros Ht Hev.
  destruct (run_guarded w pre ev post name v Ht Hev) as (before & r & Hr & Hv & ->).
  split; [by exists before, r |].
  intros line Hin Hmask.
  apply in_or_app. right. right. apply in_or_app. left.
  apply in_map. unfold masked_lines. by apply filter_In.
Qed.

Lemma C2_masking_precedes_publication_witness :
  let w := Sample.world None "2" "true" Sample.three_refs Sample.store in
  let r := Sample.ref "p/s/one" "ONE" in
  let pre := [AxiosGet (API_URL w) 3000; AccessSecret (client_of w) r "utf8";
              SetSecret "bb"; SetSecret "ccc"] in
  let ev := SetOutput "ONE" Sample.multiline in
  let post := skipn 5 (trace (run w)) in
  trace (run w) = pre ++ ev :: post
  /\ publishes ev "ONE" Sample.multiline
  /\ In (SetSecret "ccc") pre.
Proof.
  intros w r pre ev post.
  split; [reflexivity |]. split; [by left |].
  apply (proj2 (C2_masking_precedes_publication w pre post ev "ONE"
                  Sample.multiline eq_refl (or_introl eq_refl))).
  - simpl. auto.
  - reflexivity.
Defined.

(** ** Projections of cycles *)

Lemma cycles_omap {X} (f : Event -> option X) (w : World) b refs vals :
  omap f (cycles w b refs vals)
  = concat (zip_with (fun r v => omap f (cycle w b r v)) refs vals).
Proof.
  revert vals. induction refs as [| r refs IH]; intros [| v vals]; try done.
  rewrite cycles_cons, omap_app, IH. done.
Qed.

Lemma concat_zip_with_singleton {X Y Z} (g : X -> Y -> Z) (xs : list X) (ys : list Y) :
  concat (zip_with (fun x y => [g x y]) xs ys) = zip_with g xs ys.
Proof.
  revert ys. induction xs as [| x xs IH]; intros [| y ys]; try done.
  simpl. by rewrite IH.
Qed.

Lemma concat_zip_with_nil {X Y Z} (xs : list X) (ys : list Y) :
  concat (zip_with (fun _ _ => @nil Z) xs ys) = [].
Proof.
  revert ys. induction xs as [| x xs IH]; intros [| y ys]; try done.
  simpl. by rewrite IH.
Qed.

Lemma zip_with_first {X Y} (xs : list X) (ys : list Y) :
  length xs = length ys -> zip_with (fun x _ => x) xs ys = xs.
Proof.
  revert ys. induction xs as [| x xs IH]; intros [| y ys] Hlen; try done.
  simpl. f_equal. apply IH. by injection Hlen.
Qed.

Lemma outputs_set_cycle (w : World) b r v :
  outputs_set (cycle w b r v) = [published r v].
Proof.
  unfold cycle, outputs_set. cbn [omap list_omap].
  rewrite omap_app. fold (outputs_set (map SetSecret (masked_lines (min_mask_length_of w) v))).
  rewrite outputs_set_masks. by destruct b.
Qed.

Lemma variables_exported_cycle (w : World) b r v :
  variables_exported (cycle w b r v) = if b then [published r v] else [].
Proof.
  unfold cycle, variables_exported. cbn [omap list_omap].
  rewrite omap_app.
  fold (variables_exported (map SetSecret (masked_lines (min_mask_length_of w) v))).
  rewrite variables_exported_masks. by destruct b.
Qed.

Lemma refs_accessed_cycle (w : World) b r v : refs_accessed (cycle w b r v) = [r].
Proof.
  unfold cycle, refs_accessed. cbn [omap list_omap].
  rewrite omap_app.
  fold (refs_accessed (map SetSecret (masked_lines (min_mask_length_of w) v))).
  rewrite refs_accessed_masks. by destruct b.
Qed.

Lemma failures_cycle (w : World) b r v : failures (cycle w b r v) = [].
Proof.
  unfold cycle, failures. cbn [omap list_omap].
  rewrite omap_app.
  fold (failures (map SetSecret (masked_lines (min_mask_length_of w) v))).
  rewrite failures_masks. by destruct b.
Qed.

Lemma outputs_set_cycles (w : World) b refs vals :
  outputs_set (cycles w b refs vals) = zip_with published refs vals.
Proof.
  unfold outputs_set. rewrite cycles_omap.
  erewrite zip_with_ext; [apply concat_zip_with_singleton | | done | done].
  intros r v. apply outputs_set_cycle.
Qed.

Lemma variables_exported_cycles (w : World) b refs vals :
  variables_exported (cycles w b refs vals)
  = if b then zip_with published refs vals else [].
Proof.
  unfold variables_exported. rewrite cycles_omap.
  destruct b.
  - erewrite zip_with_ext; [apply concat_zip_with_singleton | | done | done].
    intros r v. apply (variables_exported_cycle w true).
  - erewrite zip_with_ext; [apply concat_zip_with_nil | | done | done].
    intros r v. apply (variables_exported_cycle w false).
Qed.

Lemma refs_accessed_cycles (w : World) b refs vals :
  length refs = length vals ->
  refs_accessed (cycles w b refs vals) = refs.
Proof.
  intros Hlen. unfold refs_accessed. rewrite cycles_omap.
  erewrite zip_with_ext; [rewrite concat_zip_with_singleton | | done | done].
  - by apply zip_with_first.
  - intros r v. apply refs_accessed_cycle.
Qed.

Lemma failures_cycles (w : World) b refs vals : failures (cycles w b refs vals) = [].
Proof.
  unfold failures. rewrite cycles_omap.
  erewrite zip_with_ext; [apply concat_zip_with_nil | | done | done].
  intros r v. apply failures_cycle.
Qed.

Lemma preflight_projections (w : World) :
  secrets_set (preflight w) = [] /\ outputs_set (preflight w) = []
  /\ variables_exported (preflight w) = [] /\ refs_accessed (preflight w) = []
  /\ failures (preflight w) = [].
Proof. unfold preflight. by destruct (axios_get w (API_URL w) 3000). Qed.

(** ** Exit status and the runner's view of the outputs *)

Lemma existsb_failed (t : list Event) :
  existsb is_SetFailed t = negb (bool_decide (failures t = [])).
Proof.
  induction t as [| e t IH]; [done |].
  destruct e; simpl; try apply IH. done.
Qed.

Lemma exit_status_done (t : list Event) :
  exit_status (t, Done tt) = if bool_decide (failures t = []) then 0 else 1.
Proof.
  unfold exit_status. cbn [outcome trace fst snd].
  rewrite existsb_failed. by destruct (bool_decide _).
Qed.

Lemma record_outputs_from (t : list Event) (m : gmap string string) :
  fold_left record_output t m
  = fold_left (fun m kv => <[kv.1 := kv.2]> m) (outputs_set t) m.
Proof.
  revert m. induction t as [| e t IH]; intros m; [done |].
  destruct e; simpl; apply IH.
Qed.

Lemma outputs_store_all (t : list Event) : outputs t = store_all (outputs_set t).
Proof. apply record_outputs_from. Qed.

Lemma record_variables_from (t : list Event) (m : gmap string string) :
  fold_left record_variable t m
  = fold_left (fun m kv => <[kv.1 := kv.2]> m) (variables_exported t) m.
Proof.
  revert m. induction t as [| e t IH]; intros m; [done |].
  destruct e; simpl; apply IH.
Qed.

Lemma exported_store_all (t : list Event) :
  exported t = store_all (variables_exported t).
Proof. apply record_variables_from. Qed.

Lemma insert_all_other (kvs : list (string * string)) (m : gmap string string) k :
  (forall kv, In kv kvs -> kv.1 <> k) ->
  fold_left (fun m kv => <[kv.1 := kv.2]> m) kvs m !! k = m !! k.
Proof.
  revert m. induction kvs as [| kv kvs IH]; intros m Hne; [done |].
  simpl. rewrite IH by (intros kv' Hin; apply Hne; by right).
  apply lookup_insert_ne, Hne. by left.
Qed.

(** Last write wins. *)
Lemma store_all_last (kvs1 kvs2 : list (string * string)) k v :
  (forall kv, In kv kvs2 -> kv.1 <> k) ->
  store_all (kvs1 ++ (k, v) :: kvs2) !! k = Some v.
Proof.
  intros Hne. unfold store_all. rewrite fold_left_app. simpl.
  rewrite insert_all_other by done. apply lookup_insert_eq.
Qed.

Lemma store_all_is_Some (kvs : list (string * string)) k v :
  In (k, v) kvs -> is_Some (store_all kvs !! k).
Proof.
  induction kvs as [| kv kvs IH] using rev_ind; [done |].
  intros Hin. unfold store_all. rewrite fold_left_app. simpl.
  destruct (decide (kv.1 = k)) as [<- | Hne].
  - rewrite lookup_insert_eq. by eexists.
  - rewrite lookup_insert_ne by done. apply IH.
    apply in_app_or in Hin as [Hin | [Heq | []]]; [done |].
    exfalso. apply Hne. by subst kv.
Qed.

Lemma Forall2_fetches_length (w : World) refs vals :
  Forall2 (fetches w) refs vals -> length refs = length vals.
Proof. apply Forall2_length. Qed.

(** ** A failed fetch *)

(** C3.  When the pre-flight check lets the run continue, the inputs are
    accepted, the references before [r] are fetched and the fetch of [r]
    fails with [e]: the run ends with exit code 1 and exactly one
    [setFailed], whose message carries [errorMessage e], called right after
    the failed fetch as the last event; the [setOutput] calls of the run are
    those of the references before [r], in order, and the runner holds an
    output for each of them (nothing is taken back); the fetches of the run
    are those of the references before [r] and of [r] itself, so no
    reference after [r] is fetched or published. *)
Theorem C3_failed_fetch_stops_the_run (w : World) (b : bool)
    (before after : list Reference) (vals : list string) (r : Reference)
    (e : Js.Thrown) :
  forbidden w = false ->
  Configured w b (before ++ r :: after) ->
  Forall2 (fetches w) before vals ->
  fails w r e ->
  let t := trace (run w) in
  exit_status (run w) = 1
  /\ outcome (run w) = Done tt
  /\ (exists pre,
        t = pre ++ [AccessSecret (client_of w) r (encoding_of w);
                    SetFailed (failure_prefix +:+ errorMessage w e)])
  /\ failures t = [failure_prefix +:+ errorMessage w e]
  /\ outputs_set t = zip_with published before vals
  /\ outputs t = store_all (zip_with published before vals)
  /\ (forall r' v', In (r', v') (zip before vals) ->
        In (SetOutput (output r') v') t /\ is_Some (outputs t !! output r'))
  /\ refs_accessed t = before ++ [r]
  /\ variables_exported t = (if b then zip_with published before vals else []).
Proof.
  intros Hsub Hcfg Hvals He t.
  pose proof (run_stops _ _ _ _ _ _ _ Hsub Hcfg Hvals He) as Hrun.
  destruct (preflight_projections w) as (_ & Hpo & Hpv & Hpr & Hpf).
  assert (Hout : outputs_set t = zip_with published before vals).
  { subst t. rewrite Hrun. cbn [trace fst].
    rewrite !outputs_set_app, Hpo, outputs_set_cycles. simpl. apply app_nil_r. }
  assert (Hfail : failures t = [failure_prefix +:+ errorMessage w e]).
  { subst t. rewrite Hrun. cbn [trace fst].
    by rewrite !failures_app, Hpf, failures_cycles. }
  split.
  { rewrite (act_eta (run w)). fold t. rewrite Hrun at 1. cbn [outcome snd].
    rewrite exit_status_done, Hfail. done. }
  split; [by rewrite Hrun |].
  split.
  { exists (preflight w ++ cycles w b before vals). subst t. rewrite Hrun.
    cbn [trace fst]. by rewrite app_assoc. }
  split; [done |].
  split; [done |].
  split; [by rewrite outputs_store_all, Hout |].
  split.
  { intros r' v' Hin.
    assert (Hin' : In (published r' v') (outputs_set t)).
    { rewrite Hout. apply list_elem_of_In. apply list_elem_of_In in Hin.
      apply list_elem_of_lookup in Hin as [i Hi].
      apply list_elem_of_lookup. exists i.
      unfold zip in Hi. apply lookup_zip_with_Some in Hi as (x & y & [= -> ->] & Hx & Hy).
      apply lookup_zip_with_Some. by exists x, y. }
    split.
    - clear -Hin'. induction t as [| ev t IH]; [done |].
      destruct ev; simpl in *; try (right; by apply IH).
      destruct Hin' as [[= <- <-] | Hin']; [by left | right; by apply IH].
    - rewrite outputs_store_all. by eapply store_all_is_Some. }
  split.
  { subst t. rewrite Hrun. cbn [trace fst].
    rewrite !refs_accessed_app, Hpr, refs_accessed_cycles
      by (by eapply Forall2_fetches_length).
    done. }
  subst t. rewrite Hrun. cbn [trace fst].
  rewrite !variables_exported_app, Hpv, variables_exported_cycles.
  simpl. apply app_nil_r.
Qed.

Lemma C3_failed_fetch_stops_the_run_witness :
  let w := Sample.world None "2" "false" Sample.three_refs Sample.store_without_two in
  let r1 := Sample.ref "p/s/one" "ONE" in
  let r2 := Sample.ref "p/s/two" "TWO" in
  let r3 := Sample.ref "p/s/three" "THREE" in
  forbidden w = false
  /\ Configured w false ([r1] ++ r2 :: [r3])
  /\ Forall2 (fetches w) [r1] [Sample.multiline]
  /\ fails w r2 (Js.Error "Permission denied")
  /\ exit_status (run w) = 1
  /\ refs_accessed (trace (run w)) = [r1; r2]
  /\ outputs_set (trace (run w)) = [("ONE", Sample.multiline)].
Proof.
  intros w r1 r2 r3.
  assert (Hsub : forbidden w = false) by reflexivity.
  assert (Hcfg : Configured w false ([r1] ++ r2 :: [r3])) by (by split).
  assert (Hvals : Forall2 (fetches w) [r1] [Sample.multiline]).
  { constructor; [reflexivity | constructor]. }
  assert (He : fails w r2 (Js.Error "Permission denied")) by reflexivity.
  pose proof (C3_failed_fetch_stops_the_run w false [r1] [r3] [Sample.multiline]
                r2 (Js.Error "Permission denied") Hsub Hcfg Hvals He)
    as (Hexit & _ & _ & _ & Hout & _ & _ & Hacc & _).
  repeat split; try done.
Defined.

(** ** The pre-flight check and the rest of the run *)

Lemma try_catch_prefix {A} (t : list Event) (m : Act A) (h : Js.Thrown -> Act A) :
  try_catch (t ++ trace m, outcome m) h
  = (t ++ trace (try_catch m h), outcome (try_catch m h)).
Proof.
  destruct m as [t' [a | e | c]]; simpl; try done.
  destruct (h e). simpl. by rewrite app_assoc.
Qed.

Lemma run_after_preflight (w : World) :
  forbidden w = false ->
  run w
  = (preflight w ++ trace (run_without_preflight w),
     outcome (run_without_preflight w)).
Proof.
  intros Hsub. unfold run, run_body.
  rewrite (validate_passes _ Hsub), bind_done.
  apply try_catch_prefix.
Qed.

Lemma forbidden_403 (w : World) err :
  axios_get w (API_URL w) 3000 = Some err ->
  Js.isAxiosError err = true ->
  Js.response_status err = Some 403 ->
  forbidden w = true.
Proof.
  intros Hget Hax Hst. unfold forbidden, status_is. by rewrite Hget, Hax, Hst.
Qed.

Lemma not_forbidden_otherwise (w : World) err :
  axios_get w (API_URL w) 3000 = Some err ->
  Js.isAxiosError err = false \/ Js.response_status err <> Some 403 ->
  forbidden w = false.
Proof.
  intros Hget Hother. unfold forbidden, status_is. rewrite Hget.
  destruct Hother as [-> | Hst]; [done |].
  apply andb_false_iff. right.
  destruct (Js.response_status err) as [s |]; [| done].
  apply Z.eqb_neq. congruence.
Qed.

Lemma exit_status_completes (w : World) b refs vals :
  forbidden w = false ->
  Configured w b refs ->
  Forall2 (fetches w) refs vals ->
  exit_status (run w) = 0 /\ failures (trace (run w)) = [].
Proof.
  intros Hsub Hcfg Hvals.
  rewrite (run_completes _ _ _ _ Hsub Hcfg Hvals).
  destruct (preflight_projections w) as (_ & _ & _ & _ & Hpf).
  assert (Hf : failures (preflight w ++ cycles w b refs vals) = []).
  { by rewrite failures_app, Hpf, failures_cycles. }
  by rewrite exit_status_done, Hf.
Qed.

Lemma projections_completes (w : World) b refs vals :
  forbidden w = false ->
  Configured w b refs ->
  Forall2 (fetches w) refs vals ->
  outputs_set (trace (run w)) = zip_with published refs vals
  /\ variables_exported (trace (run w))
     = (if b then zip_with published refs vals else [])
  /\ refs_accessed (trace (run w)) = refs.
Proof.
  intros Hsub Hcfg Hvals.
  rewrite (run_completes _ _ _ _ Hsub Hcfg Hvals). cbn [trace fst].
  destruct (preflight_projections w) as (_ & Hpo & Hpv & Hpr & _).
  rewrite outputs_set_app, variables_exported_app, refs_accessed_app.
  rewrite Hpo, Hpv, Hpr, outputs_set_cycles, variables_exported_cycles.
  rewrite refs_accessed_cycles by (by eapply Forall2_fetches_length).
  done.
Qed.

(** C4.  The first event of every run is the request to the subscription
    endpoint, so the check comes before any fetch.  If the request is
    rejected with an Axios error whose response status is 403, the run
    consists of the request, the error line with the support address and
    [process.exit(1)]: exit code 1, no secret fetched.  If the request fails
    in any other way, the run logs the information line and then continues
    exactly like the run in which the request succeeds; in particular, with
    accepted inputs and a store that returns every secret, all references
    are fetched and published and the exit code is 0. *)
Theorem C4_preflight_check (w : World) :
  (exists rest, trace (run w) = AxiosGet (API_URL w) 3000 :: rest)
  /\ (forall err,
        axios_get w (API_URL w) 3000 = Some err ->
        Js.isAxiosError err = true ->
        Js.response_status err = Some 403 ->
        run w
        = ([AxiosGet (API_URL w) 3000; CoreError forbidden_message; ProcessExit 1],
           Exited 1)
        /\ exit_status (run w) = 1
        /\ refs_accessed (trace (run w)) = [])
  /\ (forall err,
        axios_get w (API_URL w) 3000 = Some err ->
        Js.isAxiosError err = false \/ Js.response_status err <> Some 403 ->
        exists rest o,
          run w
          = (AxiosGet (API_URL w) 3000 :: CoreInfo unreachable_message :: rest, o)
          /\ run (with_subscription w None) = (AxiosGet (API_URL w) 3000 :: rest, o)
          /\ (forall b refs vals,
                Configured w b refs ->
                Forall2 (fetches w) refs vals ->
                refs_accessed (trace (run w)) = refs
                /\ outputs_set (trace (run w)) = zip_with published refs vals
                /\ exit_status (run w) = 0)).
Proof.
  split; [| split].
  - destruct (forbidden w) eqn:Hsub.
    + rewrite (run_forbidden _ Hsub). by eexists.
    + rewrite (run_after_preflight _ Hsub). by eexists.
  - intros err Hget Hax Hst.
    rewrite (run_forbidden _ (forbidden_403 _ _ Hget Hax Hst)). done.
  - intros err Hget Hother.
    pose proof (not_forbidden_otherwise _ _ Hget Hother) as Hsub.
    exists (trace (run_without_preflight w)), (outcome (run_without_preflight w)).
    split; [| split].
    + rewrite (run_after_preflight _ Hsub). unfold preflight. by rewrite Hget.
    + by rewrite (run_after_preflight (with_subscription w None)).
    + intros b refs vals Hcfg Hvals.
      destruct (projections_completes _ _ _ _ Hsub Hcfg Hvals) as (Ho & _ & Hr).
      destruct (exit_status_completes _ _ _ _ Hsub Hcfg Hvals) as [He _].
      done.
Qed.

Lemma C4_preflight_check_witness :
  let denied :=
    Sample.world (Some Sample.rejected_403) "2" "false" Sample.three_refs Sample.store in
  let slow :=
    Sample.world (Some Sample.timed_out) "2" "false" Sample.three_refs Sample.store in
  (axios_get denied (API_URL denied) 3000 = Some Sample.rejected_403
   /\ exit_status (run denied) = 1
   /\ refs_accessed (trace (run denied)) = [])
  /\ (axios_get slow (API_URL slow) 3000 = Some Sample.timed_out
      /\ Js.response_status Sample.timed_out <> Some 403
      /\ exists rest o,
           run slow
           = (AxiosGet (API_URL slow) 3000 :: CoreInfo unreachable_message :: rest, o)
           /\ run (with_subscription slow None)
              = (AxiosGet (API_URL slow) 3000 :: rest, o)).
Proof.
  intros denied slow. split.
  - split; [reflexivity |].
    destruct (C4_preflight_check denied) as (_ & H403 & _).
    by destruct (H403 Sample.rejected_403 eq_refl eq_refl eq_refl) as (_ & He & Hr).
  - split; [reflexivity |]. split; [discriminate |].
    destruct (C4_preflight_check slow) as (_ & _ & Hother).
    assert (Hget : axios_get slow (API_URL slow) 3000 = Some Sample.timed_out)
      by reflexivity.
    assert (Hne : Js.isAxiosError Sample.timed_out = false
                  \/ Js.response_status Sample.timed_out <> Some 403)
      by (right; discriminate).
    destruct (Hother Sample.timed_out Hget Hne) as (rest & o & Hrun & Hrun' & _).
    exists rest, o. split; assumption.
Defined.

(** C10.  When the subscription request is rejected with an Axios error
    whose response status is 403, [validateSubscription] itself ends the
    process with [process.exit(1)]: the run ends with exit code 1 inside the
    pre-flight check, the catch handler of [run] does not run, so there is
    no [setFailed] and no message starting with the action's failure prefix;
    the only diagnostic is the error line that points to support. *)
Theorem C10_forbidden_exits_in_preflight (w : World) (err : Js.Thrown) :
  axios_get w (API_URL w) 3000 = Some err ->
  Js.isAxiosError err = true ->
  Js.response_status err = Some 403 ->
  validateSubscription w
  = ([AxiosGet (API_URL w) 3000;
      CoreError "Subscription is not valid. Reach out to support@stepsecurity.io";
      ProcessExit 1],
     Exited 1)
  /\ run w = validateSubscription w
  /\ outcome (run w) = Exited 1
  /\ exit_status (run w) = 1
  /\ failures (trace (run w)) = []
  /\ (forall msg, ~ In (SetFailed msg) (trace (run w)))
  /\ (forall msg, In (CoreError msg) (trace (run w)) -> msg = forbidden_message).
Proof.
  intros Hget Hax Hst.
  pose proof (forbidden_403 _ _ Hget Hax Hst) as Hsub.
  rewrite (run_forbidden _ Hsub), (validate_forbidden _ Hsub).
  repeat split; try done.
  - intros msg [H | [H | [H | []]]]; discriminate H.
  - intros msg [H | [H | [H | []]]]; try discriminate H. by injection H.
Qed.

Lemma C10_forbidden_exits_in_preflight_witness :
  let w :=
    Sample.world (Some Sample.rejected_403) "2" "false" Sample.three_refs Sample.store in
  axios_get w (API_URL w) 3000 = Some Sample.rejected_403
  /\ outcome (run w) = Exited 1
  /\ failures (trace (run w)) = [].
Proof.
  intros w. split; [reflexivity |].
  destruct (C10_forbidden_exits_in_preflight w Sample.rejected_403 eq_refl eq_refl eq_refl)
    as (_ & _ & Ho & _ & Hf & _).
  by split.
Defined.

(** ** Runs with accepted inputs *)

Lemma run_configured (w : World) b refs :
  forbidden w = false ->
  Configured w b refs ->
  exists done vals rest tail,
    fetched_prefix w refs done vals rest
    /\ run w = (preflight w ++ cycles w b done vals ++ tail, Done tt)
    /\ (rest = [] /\ tail = []
        \/ exists r e after,
             rest = r :: after
             /\ tail = [AccessSecret (client_of w) r (encoding_of w);
                        SetFailed (failure_prefix +:+ errorMessage w e)]).
Proof.
  intros Hsub Hcfg.
  destruct (fetch_prefix w refs)
    as (before & vals & Hvals & [-> | (r & e & after & -> & He)]).
  - exists before, vals, [], []. split; [| split].
    + split; [by rewrite app_nil_r | split; [done | by left]].
    + rewrite app_nil_r. by apply run_completes.
    + by left.
  - exists before, vals, (r :: after),
      [AccessSecret (client_of w) r (encoding_of w);
       SetFailed (failure_prefix +:+ errorMessage w e)].
    split; [| split].
    + split; [done | split; [done | right; by exists r, e, after]].
    + by eapply run_stops.
    + right. by exists r, e, after.
Qed.

Lemma steps_masks (ls : list string) : steps (map SetSecret ls) = [].
Proof. by induction ls. Qed.

Lemma steps_cycle (w : World) b r v :
  steps (cycle w b r v) = [inl r; inr (published r v)].
Proof.
  unfold cycle, steps. cbn [omap list_omap].
  rewrite omap_app.
  fold (steps (map SetSecret (masked_lines (min_mask_length_of w) v))).
  rewrite steps_masks. by destruct b.
Qed.

Lemma steps_preflight (w : World) : steps (preflight w) = [].
Proof. unfold preflight. by destruct (axios_get w (API_URL w) 3000). Qed.

Lemma zip_with_published_names (refs : list Reference) (vals : list string) :
  length refs = length vals ->
  map fst (zip_with published refs vals) = map output refs.
Proof.
  revert vals. induction refs as [| r refs IH]; intros [| v vals] Hlen; try done.
  simpl. f_equal. apply IH. by injection Hlen.
Qed.

(** C5.  In a run that gets past the pre-flight check with accepted inputs,
    let [done] be the references that are fetched, with values [vals].  The
    [setOutput] calls are exactly one per fetched reference, with the
    reference's output name and the whole value.  When the flag is false
    there is no [exportVariable] call and no environment variable is bound;
    when it is true the [exportVariable] calls carry the same names and
    values as the [setOutput] calls, so the variables bound are the outputs
    set.  For one fetched reference the loop body sets the output to the
    value and exports it under the same name exactly when the flag is true. *)
Theorem C5_publish_policy (w : World) (b : bool) (refs : list Reference) :
  forbidden w = false ->
  Configured w b refs ->
  let t := trace (run w) in
  (exists done vals rest,
      fetched_prefix w refs done vals rest
      /\ outputs_set t = zip_with published done vals
      /\ variables_exported t = (if b then zip_with published done vals else []))
  /\ (b = false -> variables_exported t = [] /\ exported t = ∅)
  /\ (b = true -> variables_exported t = outputs_set t /\ exported t = outputs t)
  /\ (forall cl enc m r v,
        secret_store w cl r enc = inr v ->
        let body := trace (access_and_export w cl enc m b r) in
        outputs_set body = [(output r, v)]
        /\ variables_exported body = (if b then [(output r, v)] else [])).
Proof.
  intros Hsub Hcfg t.
  destruct (run_configured _ _ _ Hsub Hcfg)
    as (done & vals & rest & tail & Hpre & Hrun & Htail).
  destruct (preflight_projections w) as (_ & Hpo & Hpv & _ & _).
  assert (Hto : outputs_set tail = [] /\ variables_exported tail = []).
  { by destruct Htail as [[_ ->] | (r & e & after & _ & ->)]. }
  destruct Hto as [Hto Htv].
  assert (Hout : outputs_set t = zip_with published done vals).
  { subst t. rewrite Hrun. cbn [trace fst].
    rewrite !outputs_set_app, Hpo, Hto, outputs_set_cycles. apply app_nil_r. }
  assert (Hvar : variables_exported t
                 = (if b then zip_with published done vals else [])).
  { subst t. rewrite Hrun. cbn [trace fst].
    rewrite !variables_exported_app, Hpv, Htv, variables_exported_cycles.
    apply app_nil_r. }
  split; [by exists done, vals, rest |].
  split; [| split].
  - intros ->. by rewrite exported_store_all, Hvar.
  - intros ->. by rewrite exported_store_all, outputs_store_all, Hvar, Hout.
  - intros cl enc m r v Hv body. subst body.
    rewrite (access_and_export_value _ _ _ _ _ _ _ Hv). cbn [trace fst].
    unfold outputs_set, variables_exported. cbn [omap list_omap].
    rewrite !omap_app.
    fold (outputs_set (map SetSecret (masked_lines m v))).
    fold (variables_exported (map SetSecret (masked_lines m v))).
    rewrite outputs_set_masks, variables_exported_masks. by destruct b.
Qed.

Lemma C5_publish_policy_witness :
  let quiet := Sample.world None "2" "false" Sample.three_refs Sample.store in
  let loud := Sample.world None "2" "true" Sample.three_refs Sample.store in
  (forbidden quiet = false
   /\ Configured quiet false Sample.three_refs
   /\ variables_exported (trace (run quiet)) = []
   /\ exported (trace (run quiet)) = ∅)
  /\ (forbidden loud = false
      /\ Configured loud true Sample.three_refs
      /\ variables_exported (trace (run loud)) = outputs_set (trace (run loud))
      /\ exported (trace (run loud)) = outputs (trace (run loud))).
Proof.
  intros quiet loud.
  assert (Hq : Configured quiet false Sample.three_refs) by (by split).
  assert (Hl : Configured loud true Sample.three_refs) by (by split).
  split.
  - destruct (C5_publish_policy quiet false Sample.three_refs eq_refl Hq)
      as (_ & Hfalse & _).
    destruct (Hfalse eq_refl) as [Hv He]. by repeat split.
  - destruct (C5_publish_policy loud true Sample.three_refs eq_refl Hl)
      as (_ & _ & Htrue & _).
    destruct (Htrue eq_refl) as [Hv He]. by repeat split.
Defined.

(** ** Order of processing *)

(** C7.  In a run that gets past the pre-flight check with accepted inputs,
    the fetches and [setOutput] calls alternate in the order of the parsed
    list: fetch of the first reference, its [setOutput], fetch of the
    second, its [setOutput], and so on, up to the end of the list or to the
    first fetch that fails.  Each reference's events form one block that
    ends before the next fetch, and the names of the [setOutput] calls are
    the output names of the processed references in list order; when every
    fetch succeeds these are the output names of the whole list. *)
Theorem C7_sequential_processing (w : World) (b : bool) (refs : list Reference) :
  forbidden w = false ->
  Configured w b refs ->
  let t := trace (run w) in
  (exists done vals rest tail,
      fetched_prefix w refs done vals rest
      /\ t = preflight w ++ cycles w b done vals ++ tail
      /\ steps t
         = concat (zip_with (fun r v => [inl r; inr (output r, v)]) done vals)
           ++ match rest with [] => [] | r :: _ => [inl r] end
      /\ map fst (outputs_set t) = map output done)
  /\ (forall vals,
        Forall2 (fetches w) refs vals ->
        t = preflight w ++ cycles w b refs vals
        /\ steps t = concat (zip_with (fun r v => [inl r; inr (output r, v)]) refs vals)
        /\ map fst (outputs_set t) = map output refs
        /\ refs_accessed t = refs).
Proof.
  intros Hsub Hcfg t.
  assert (Hsteps : forall done vals,
             steps (cycles w b done vals)
             = concat (zip_with (fun r v => [inl r; inr (output r, v)]) done vals)).
  { intros done vals. unfold steps. rewrite cycles_omap.
    f_equal. apply zip_with_ext; [| done | done].
    intros r v. apply steps_cycle. }
  split.
  - destruct (run_configured _ _ _ Hsub Hcfg)
      as (done & vals & rest & tail & Hpre & Hrun & Htail).
    exists done, vals, rest, tail.
    split; [done |]. split; [by subst t; rewrite Hrun |].
    destruct (preflight_projections w) as (_ & Hpo & _ & _ & _).
    pose proof Hpre as (_ & Hvals & _).
    subst t. rewrite Hrun. cbn [trace fst]. split.
    + unfold steps at 1. rewrite !omap_app.
      fold (steps (preflight w)). fold (steps (cycles w b done vals)).
      rewrite steps_preflight, Hsteps. cbn [app]. f_equal.
      by destruct Htail as [[-> ->] | (r & e & after & -> & ->)].
    + rewrite !outputs_set_app, Hpo, outputs_set_cycles. cbn [app].
      replace (outputs_set tail) with (@nil (string * string))
        by (by destruct Htail as [[_ ->] | (r & e & after & _ & ->)]).
      rewrite app_nil_r. apply zip_with_published_names.
      by eapply Forall2_fetches_length.
  - intros vals Hvals.
    destruct (projections_completes _ _ _ _ Hsub Hcfg Hvals) as (Ho & _ & Hr).
    fold t in Ho, Hr.
    assert (Ht : t = preflight w ++ cycles w b refs vals).
    { subst t. by rewrite (run_completes _ _ _ _ Hsub Hcfg Hvals). }
    split; [done |]. split; [| split; [| done]].
    + rewrite Ht. unfold steps at 1. rewrite omap_app.
      fold (steps (preflight w)). fold (steps (cycles w b refs vals)).
      by rewrite steps_preflight, Hsteps.
    + rewrite Ho. apply zip_with_published_names.
      by eapply Forall2_fetches_length.
Qed.

Lemma C7_sequential_processing_witness :
  let w := Sample.world None "2" "false" Sample.three_refs Sample.store in
  forbidden w = false
  /\ Configured w false Sample.three_refs
  /\ Forall2 (fetches w) Sample.three_refs
       [Sample.multiline; "second-value"; "third-value"]
  /\ map fst (outputs_set (trace (run w))) = ["ONE"; "TWO"; "THREE"]
  /\ refs_accessed (trace (run w)) = Sample.three_refs.
Proof.
  intros w.
  assert (Hcfg : Configured w false Sample.three_refs) by (by split).
  assert (Hvals : Forall2 (fetches w) Sample.three_refs
                    [Sample.multiline; "second-value"; "third-value"]).
  { repeat constructor. }
  destruct (C7_sequential_processing w false Sample.three_refs eq_refl Hcfg)
    as [_ Hall].
  destruct (Hall _ Hvals) as (_ & _ & Hnames & Hrefs).
  by repeat split.
Defined.

(** ** Clashing output names *)

(** C9.  In a run that completes, [setOutput] is called once per reference,
    in list order, with the reference's output name and value.  The runner
    therefore ends up, for each output name, with the value of the last
    reference in the list that has this name: a reference that is followed
    by no reference of the same output name determines the output, and of
    two references with one name the later one does. *)
Theorem C9_last_write_wins (w : World) (b : bool) (refs : list Reference)
    (vals : list string) :
  forbidden w = false ->
  Configured w b refs ->
  Forall2 (fetches w) refs vals ->
  let t := trace (run w) in
  outputs_set t = zip_with (fun r v => (output r, v)) refs vals
  /\ length (outputs_set t) = length refs
  /\ (forall i r v,
        refs !! i = Some r ->
        vals !! i = Some v ->
        (forall j r', (i < j)%nat -> refs !! j = Some r' -> output r' <> output r) ->
        outputs t !! output r = Some v)
  /\ (forall i j r1 r2 v2,
        (i < j)%nat ->
        refs !! i = Some r1 ->
        refs !! j = Some r2 ->
        vals !! j = Some v2 ->
        output r1 = output r2 ->
        (forall k r', (j < k)%nat -> refs !! k = Some r' -> output r' <> output r2) ->
        outputs t !! output r1 = Some v2).
Proof.
  intros Hsub Hcfg Hvals t.
  destruct (projections_completes _ _ _ _ Hsub Hcfg Hvals) as (Hout & _ & _).
  fold t in Hout.
  pose proof (Forall2_fetches_length _ _ _ Hvals) as Hlen.
  assert (Hlast : forall i r v,
             refs !! i = Some r ->
             vals !! i = Some v ->
             (forall j r', (i < j)%nat -> refs !! j = Some r' -> output r' <> output r) ->
             outputs t !! output r = Some v).
  { intros i r v Hr Hv Hlater.
    rewrite outputs_store_all, Hout.
    rewrite <- (take_drop_middle refs i r Hr), <- (take_drop_middle vals i v Hv).
    rewrite zip_with_app by (rewrite !length_take; lia).
    cbn [zip_with]. apply (store_all_last _ _ (output r) v).
    intros kv Hin. apply list_elem_of_In, list_elem_of_lookup in Hin as [k Hk].
    apply lookup_zip_with_Some in Hk as (r' & v' & -> & Hr' & _).
    rewrite lookup_drop in Hr'. apply (Hlater (S i + k)%nat r'); [lia | done]. }
  split; [done |].
  split; [by rewrite Hout, length_zip_with, <- Hlen, Nat.min_id |].
  split; [done |].
  intros i j r1 r2 v2 Hij Hr1 Hr2 Hv2 Hname Hlater.
  rewrite Hname. by apply (Hlast j).
Qed.

Lemma C9_last_write_wins_witness :
  let w := Sample.world None "2" "false" Sample.clashing_refs Sample.store in
  forbidden w = false
  /\ Configured w false Sample.clashing_refs
  /\ Forall2 (fetches w) Sample.clashing_refs [Sample.multiline; "second-value"]
  /\ outputs_set (trace (run w))
     = [("OUT", Sample.multiline); ("OUT", "second-value")]
  /\ outputs (trace (run w)) !! "OUT" = Some "second-value".
Proof.
  intros w.
  assert (Hcfg : Configured w false Sample.clashing_refs) by (by split).
  assert (Hvals : Forall2 (fetches w) Sample.clashing_refs
                    [Sample.multiline; "second-value"]).
  { repeat constructor. }
  destruct (C9_last_write_wins w false Sample.clashing_refs _ eq_refl Hcfg Hvals)
    as (Hout & _ & _ & Htwo).
  split; [reflexivity |]. split; [exact Hcfg |]. split; [exact Hvals |].
  split; [exact Hout |].
  apply (Htwo 0%nat 1%nat (Sample.ref "p/s/one" "OUT") (Sample.ref "p/s/two" "OUT"));
    [lia | reflexivity | reflexivity | reflexivity | reflexivity |].
  intros [| [| k]] r' Hlt Hk; [lia | lia | discriminate Hk].
Defined.

(** ** A minimum mask length that is not a number *)

Lemma secrets_set_cycle (w : World) b r v :
  secrets_set (cycle w b r v) = masked_lines (min_mask_length_of w) v.
Proof.
  unfold cycle. change (?e :: ?l ++ ?k) with ([e] ++ l ++ k).
  rewrite !secrets_set_app, secrets_set_masks. destruct b; simpl; apply app_nil_r.
Qed.

Lemma secrets_set_cycles_NaN (w : World) b refs vals :
  min_mask_length_of w = Js.NaN ->
  secrets_set (cycles w b refs vals) = [].
Proof.
  intros Hnan. unfold secrets_set. rewrite cycles_omap.
  erewrite zip_with_ext; [apply concat_zip_with_nil | | done | done].
  intros r v. fold (secrets_set (cycle w b r v)).
  by rewrite secrets_set_cycle, Hnan, masked_lines_NaN.
Qed.

Lemma parseInt_empty (s : string) : Js.trim s = "" -> Js.parseInt (Js.trim s) = Js.NaN.
Proof. by intros ->. Qed.

(** C8.  When the [min_mask_length] input is empty (after trimming) or is
    otherwise parsed to NaN, the minimum mask length is NaN and no run
    calls [setSecret] at all; this is not an error: a run that gets past the
    pre-flight check with accepted inputs and a store that returns every
    secret fetches every reference, sets every output (and exports it when
    asked to), ends normally with exit code 0 and never calls [setFailed]. *)
Theorem C8_nan_masks_nothing (w : World) :
  Js.trim (inputs w "min_mask_length") = "" \/ min_mask_length_of w = Js.NaN ->
  let t := trace (run w) in
  min_mask_length_of w = Js.NaN
  /\ secrets_set t = []
  /\ (forall line, ~ In (SetSecret line) t)
  /\ (forall b refs vals,
        forbidden w = false ->
        Configured w b refs ->
        Forall2 (fetches w) refs vals ->
        outcome (run w) = Done tt
        /\ exit_status (run w) = 0
        /\ failures t = []
        /\ refs_accessed t = refs
        /\ outputs_set t = zip_with published refs vals
        /\ variables_exported t = (if b then zip_with published refs vals else [])).
Proof.
  intros Hmin t.
  assert (Hnan : min_mask_length_of w = Js.NaN).
  { destruct Hmin as [Hempty | Hnan]; [by apply parseInt_empty | done]. }
  destruct (preflight_projections w) as (Hps & _).
  assert (Hnone : secrets_set t = []).
  { subst t.
    destruct (run_cases w)
      as [Hsub | Hsub Hsec | e Hsub Hsec Hexp | b e Hsub Hsec Hexp Hrefs
          | b refs vals Hsub Hcfg Hvals | b before vals r e after Hsub Hcfg Hvals He].
    - by rewrite (run_forbidden _ Hsub).
    - rewrite (run_missing_secrets _ Hsub Hsec). cbn [rejected_run trace fst].
      by rewrite secrets_set_app, Hps.
    - rewrite (run_invalid_boolean _ _ Hsub Hsec Hexp). cbn [rejected_run trace fst].
      by rewrite secrets_set_app, Hps.
    - rewrite (run_parse_error _ _ _ Hsub Hsec Hexp Hrefs).
      cbn [rejected_run trace fst]. by rewrite secrets_set_app, Hps.
    - rewrite (run_completes _ _ _ _ Hsub Hcfg Hvals). cbn [trace fst].
      by rewrite secrets_set_app, Hps, secrets_set_cycles_NaN.
    - rewrite (run_stops _ _ _ _ _ _ _ Hsub Hcfg Hvals He). cbn [trace fst].
      by rewrite !secrets_set_app, Hps, secrets_set_cycles_NaN. }
  split; [done |]. split; [done |].
  split.
  { intros line Hin. apply In_secrets_set in Hin. by rewrite Hnone in Hin. }
  intros b refs vals Hsub Hcfg Hvals.
  destruct (projections_completes _ _ _ _ Hsub Hcfg Hvals) as (Ho & Hv & Hr).
  destruct (exit_status_completes _ _ _ _ Hsub Hcfg Hvals) as [He Hf].
  split; [by rewrite (run_completes _ _ _ _ Hsub Hcfg Hvals) |]. done.
Qed.

Lemma C8_nan_masks_nothing_witness :
  let w := Sample.world None "" "false" Sample.three_refs Sample.store in
  Js.trim (inputs w "min_mask_length") = ""
  /\ secrets_set (trace (run w)) = []
  /\ exit_status (run w) = 0
  /\ map fst (outputs_set (trace (run w))) = ["ONE"; "TWO"; "THREE"].
Proof.
  intros w.
  assert (Hcfg : Configured w false Sample.three_refs) by (by split).
  assert (Hvals : Forall2 (fetches w) Sample.three_refs
                    [Sample.multiline; "second-value"; "third-value"]).
  { repeat constructor. }
  destruct (C8_nan_masks_nothing w (or_introl eq_refl)) as (_ & Hnone & _ & Hrun).
  destruct (Hrun false _ _ eq_refl Hcfg Hvals) as (_ & He & _ & _ & Ho & _).
  split; [reflexivity |]. split; [done |]. split; [done |].
  by rewrite Ho.
Defined.

(** ** An invalid minimum mask length is not an error *)

Lemma verdict_rejected (w : World) e :
  verdict (rejected_run w e)
  = (Done tt, 1, [failure_prefix +:+ errorMessage w e]).
Proof.
  unfold verdict, rejected_run. rewrite exit_status_done. cbn [trace outcome fst snd].
  destruct (preflight_projections w) as (_ & _ & _ & _ & Hpf).
  by rewrite failures_app, Hpf.
Qed.

Lemma verdict_completes (w : World) b refs vals :
  forbidden w = false ->
  Configured w b refs ->
  Forall2 (fetches w) refs vals ->
  verdict (run w) = (Done tt, 0, []).
Proof.
  intros Hsub Hcfg Hvals. unfold verdict.
  destruct (exit_status_completes _ _ _ _ Hsub Hcfg Hvals) as [-> ->].
  by rewrite (run_completes _ _ _ _ Hsub Hcfg Hvals).
Qed.

Lemma verdict_stops (w : World) b before vals r e after :
  forbidden w = false ->
  Configured w b (before ++ r :: after) ->
  Forall2 (fetches w) before vals ->
  fails w r e ->
  verdict (run w) = (Done tt, 1, [failure_prefix +:+ errorMessage w e]).
Proof.
  intros Hsub Hcfg Hvals He. unfold verdict.
  rewrite (run_stops _ _ _ _ _ _ _ Hsub Hcfg Hvals He), exit_status_done.
  cbn [trace outcome fst snd].
  destruct (preflight_projections w) as (_ & _ & _ & _ & Hpf).
  by rewrite !failures_app, Hpf, failures_cycles.
Qed.

(** The verdict of a run does not depend on the [min_mask_length] input. *)
Lemma verdict_ignores_min_mask_length (w : World) (value : string) :
  verdict (run (with_input w "min_mask_length" value)) = verdict (run w).
Proof.
  set (w' := with_input w "min_mask_length" value).
  destruct (run_cases w)
    as [Hsub | Hsub Hsec | e Hsub Hsec Hexp | b e Hsub Hsec Hexp Hrefs
        | b refs vals Hsub Hcfg Hvals | b before vals r e after Hsub Hcfg Hvals He].
  - by rewrite (run_forbidden w Hsub), (run_forbidden w' Hsub).
  - rewrite (run_missing_secrets w Hsub Hsec), (run_missing_secrets w' Hsub Hsec).
    by rewrite !verdict_rejected.
  - rewrite (run_invalid_boolean w e Hsub Hsec Hexp).
    rewrite (run_invalid_boolean w' e Hsub Hsec Hexp).
    by rewrite !verdict_rejected.
  - rewrite (run_parse_error w b e Hsub Hsec Hexp Hrefs).
    rewrite (run_parse_error w' b e Hsub Hsec Hexp Hrefs).
    by rewrite !verdict_rejected.
  - assert (Hcfg' : Configured w' b refs) by (by destruct Hcfg).
    rewrite (verdict_completes w b refs vals Hsub Hcfg Hvals).
    by rewrite (verdict_completes w' b refs vals Hsub Hcfg' Hvals).
  - assert (Hcfg' : Configured w' b (before ++ r :: after)) by (by destruct Hcfg).
    rewrite (verdict_stops w b before vals r e after Hsub Hcfg Hvals He).
    by rewrite (verdict_stops w' b before vals r e after Hsub Hcfg' Hvals He).
Qed.

(** C6.  The claim wants a [min_mask_length] that is not a valid integer to
    fail the run; the code does not check the parsed number.  With the
    input [abc] line 57 yields NaN, nothing is thrown, the run returns with
    exit code 0 and without [setFailed], all three outputs are set, and not
    one line of the three secrets is masked.  With [12abc] the input is
    taken for 12 and the run succeeds as well.  The neighbouring input is
    checked: the same run with an [export_to_environment] that is not a
    boolean fails with exit code 1 and one [setFailed].  In general the
    outcome, exit code and failure messages of a run are the same for every
    value of [min_mask_length]. *)
Theorem C6_invalid_integer_is_not_rejected :
  let w := Sample.world None "abc" "false" Sample.three_refs Sample.store in
  let w12 := Sample.world None "12abc" "false" Sample.three_refs Sample.store in
  let wb := Sample.world None "abc" "maybe" Sample.three_refs Sample.store in
  (inputs w "min_mask_length" = "abc"
   /\ min_mask_length_of w = Js.NaN
   /\ outcome (run w) = Done tt
   /\ exit_status (run w) = 0
   /\ failures (trace (run w)) = []
   /\ secrets_set (trace (run w)) = []
   /\ outputs_set (trace (run w))
      = [("ONE", Sample.multiline); ("TWO", "second-value"); ("THREE", "third-value")])
  /\ (min_mask_length_of w12 = Js.Num 12
      /\ exit_status (run w12) = 0
      /\ failures (trace (run w12)) = [])
  /\ (exit_status (run wb) = 1
      /\ length (failures (trace (run wb))) = 1%nat
      /\ refs_accessed (trace (run wb)) = [])
  /\ (forall (w' : World) (value : string),
        verdict (run (with_input w' "min_mask_length" value)) = verdict (run w')).
Proof.
  intros w w12 wb.
  split; [by repeat split |].
  split; [by repeat split |].
  split; [by repeat split |].
  intros w' value. apply verdict_ignores_min_mask_length.
Qed.

(** * Further properties of [run] *)

Lemma In_failures (t : list Event) (msg : string) :
  In (SetFailed msg) t <-> In msg (failures t).
Proof.
  induction t as [| e t IH]; [done |].
  destruct e; simpl; rewrite <- ?IH; split; intros H;
    try (destruct H as [H | H]; [discriminate H | done]); try (by right).
  - destruct H as [[= ->] | H]; [by left | by right].
  - destruct H as [-> | H]; [by left | by right].
Qed.

(** How a run can end. *)
Lemma verdict_cases (w : World) :
  (forbidden w = true /\ verdict (run w) = (Exited 1, 1, []))
  \/ (forbidden w = false
      /\ exists e, verdict (run w)
                   = (Done tt, 1, [failure_prefix +:+ errorMessage w e]))
  \/ (forbidden w = false
      /\ exists b refs vals,
           Configured w b refs /\ Forall2 (fetches w) refs vals
           /\ verdict (run w) = (Done tt, 0, [])).
Proof.
  destruct (run_cases w)
    as [Hsub | Hsub Hsec | e Hsub Hsec Hexp | b e Hsub Hsec Hexp Hrefs
        | b refs vals Hsub Hcfg Hvals | b before vals r e after Hsub Hcfg Hvals He].
  - left. by rewrite (run_forbidden w Hsub).
  - right; left. split; [done |]. exists missing_secrets.
    by rewrite (run_missing_secrets w Hsub Hsec), verdict_rejected.
  - right; left. split; [done |]. exists e.
    by rewrite (run_invalid_boolean w e Hsub Hsec Hexp), verdict_rejected.
  - right; left. split; [done |]. exists e.
    by rewrite (run_parse_error w b e Hsub Hsec Hexp Hrefs), verdict_rejected.
  - right; right. split; [done |]. exists b, refs, vals.
    by rewrite (verdict_completes w b refs vals).
  - right; left. split; [done |]. exists e.
    by rewrite (verdict_stops w b before vals r e after).
Qed.

(** X1.  [run] never rejects: whatever the inputs, the endpoint and the
    store do, the run either returns (every exception is caught by the
    handler on lines 90-93) or ends in [process.exit(1)], the latter exactly
    when the pre-flight request is answered with a 403; the exit code is 0
    or 1. *)
Theorem X1_run_never_throws (w : World) :
  (outcome (run w) = Done tt \/ outcome (run w) = Exited 1)
  /\ (exit_status (run w) = 0 \/ exit_status (run w) = 1)
  /\ (outcome (run w) = Exited 1 <-> forbidden w = true).
Proof.
  destruct (verdict_cases w)
    as [[Hsub Hv] | [[Hsub [e Hv]] | [Hsub (b & refs & vals & _ & _ & Hv)]]];
    unfold verdict in Hv; injection Hv as -> -> _; rewrite Hsub;
    repeat split; auto; discriminate.
Qed.

(** X2.  The exit code is 0 exactly when the pre-flight check lets the run
    continue, every input is accepted and every parsed reference is
    fetched; the [setOutput] calls are then one per parsed reference.  A
    run that exits with 0 has left no reference out. *)
Theorem X2_exit_zero_iff_all_published (w : World) :
  exit_status (run w) = 0 <->
  exists b refs vals,
    forbidden w = false
    /\ Configured w b refs
    /\ Forall2 (fetches w) refs vals
    /\ outputs_set (trace (run w)) = zip_with published refs vals.
Proof.
  split.
  - intros Hexit.
    destruct (verdict_cases w)
      as [[Hsub Hv] | [[Hsub [e Hv]] | [Hsub (b & refs & vals & Hcfg & Hvals & Hv)]]];
      unfold verdict in Hv; injection Hv as _ Hx _;
      try (rewrite Hx in Hexit; discriminate Hexit).
    exists b, refs, vals.
    by destruct (projections_completes _ _ _ _ Hsub Hcfg Hvals) as (Ho & _).
  - intros (b & refs & vals & Hsub & Hcfg & Hvals & _).
    by destruct (exit_status_completes _ _ _ _ Hsub Hcfg Hvals).
Qed.

(** X3.  An input error stops the run before any secret is touched.  When
    the [secrets] input is missing, or else [export_to_environment] is not a
    boolean, or else the references do not parse (the checks come in this
    order, lines 56, 58 and 67, so an invalid boolean is reported even if
    the references would not parse either), the events after the pre-flight
    check are a single [setFailed] with the error's message: nothing is
    fetched, masked, set or exported, and the exit code is 1. *)
Theorem X3_input_errors_fetch_nothing (w : World) (e : Js.Thrown) :
  forbidden w = false ->
  (Js.is_empty (inputs w "secrets") = true /\ e = missing_secrets)
  \/ (Js.is_empty (inputs w "secrets") = false
      /\ parseBoolean w (Js.trim (inputs w "export_to_environment")) = inl e)
  \/ (Js.is_empty (inputs w "secrets") = false
      /\ (exists b,
            parseBoolean w (Js.trim (inputs w "export_to_environment")) = inr b)
      /\ parseSecretsRefs w (Js.trim (inputs w "secrets")) = inl e) ->
  let t := trace (run w) in
  t = preflight w ++ [SetFailed (failure_prefix +:+ errorMessage w e)]
  /\ exit_status (run w) = 1
  /\ refs_accessed t = []
  /\ secrets_set t = []
  /\ outputs_set t = []
  /\ variables_exported t = [].
Proof.
  intros Hsub Hbad t.
  assert (Hrun : run w = rejected_run w e).
  { destruct Hbad as [[Hsec ->] | [[Hsec Hexp] | (Hsec & [b Hexp] & Hrefs)]].
    - by apply run_missing_secrets.
    - by apply run_invalid_boolean.
    - by eapply run_parse_error. }
  pose proof (verdict_rejected w e) as Hv. rewrite <- Hrun in Hv.
  unfold verdict in Hv. injection Hv as _ Hexit _.
  destruct (preflight_projections w) as (Hps & Hpo & Hpv & Hpr & _).
  subst t. rewrite Hrun in *. cbn [rejected_run trace fst].
  rewrite refs_accessed_app, secrets_set_app, outputs_set_app, variables_exported_app.
  rewrite Hps, Hpo, Hpv, Hpr. done.
Qed.

Lemma X3_input_errors_fetch_nothing_witness :
  let w := Sample.world None "2" "maybe" Sample.three_refs Sample.store in
  forbidden w = false
  /\ parseBoolean w (Js.trim (inputs w "export_to_environment"))
     = inl (Js.Error "invalid boolean")
  /\ exit_status (run w) = 1
  /\ refs_accessed (trace (run w)) = [].
Proof.
  intros w. split; [reflexivity |]. split; [reflexivity |].
  assert (Hbad : Js.is_empty (inputs w "secrets") = false
                 /\ parseBoolean w (Js.trim (inputs w "export_to_environment"))
                    = inl (Js.Error "invalid boolean")) by (by split).
  destruct (X3_input_errors_fetch_nothing w (Js.Error "invalid boolean") eq_refl
              (or_intror (or_introl Hbad))) as (_ & Hexit & Hacc & _).
  by split.
Defined.

(** ** What the loop leaves alone *)

Lemma omap_all_None {X Y} (f : X -> option Y) (l : list X) :
  Forall (fun x => f x = None) l -> omap f l = [].
Proof.
  induction 1 as [| x l Hx _ IH]; [done |].
  cbn [omap list_omap]. by rewrite Hx.
Qed.

Lemma cycle_events (w : World) b r v :
  Forall (fun e => is_cycle_event e = true) (cycle w b r v).
Proof.
  unfold cycle. constructor; [done |].
  apply Forall_app. split.
  - apply List.Forall_forall. intros e Hin.
    apply in_map_iff in Hin as (l & <- & _). done.
  - destruct b; repeat constructor.
Qed.

Lemma cycles_events (w : World) b refs vals :
  Forall (fun e => is_cycle_event e = true) (cycles w b refs vals).
Proof.
  revert vals. induction refs as [| r refs IH]; intros [| v vals]; try by constructor.
  rewrite cycles_cons. apply Forall_app. split; [apply cycle_events | apply IH].
Qed.

Lemma omap_cycles_nil {Y} (f : Event -> option Y) (w : World) b refs vals :
  (forall e, is_cycle_event e = true -> f e = None) ->
  omap f (cycles w b refs vals) = [].
Proof.
  intros Hf. apply omap_all_None.
  pose proof (cycles_events w b refs vals) as Hall.
  induction Hall as [| e l He _ IH]; constructor; auto.
Qed.

(** The [try] block either ends the process on a 403, or throws after
    events that hold no [setFailed], or completes all cycles. *)
Lemma run_body_cases (w : World) :
  (forbidden w = true
   /\ run_body w
      = ([AxiosGet (API_URL w) 3000; CoreError forbidden_message; ProcessExit 1],
         Exited 1))
  \/ (forbidden w = false
      /\ exists e t,
           run_body w = (preflight w ++ t, Threw e)
           /\ failures t = [] /\ log_lines t = [])
  \/ (forbidden w = false
      /\ exists b refs vals,
           Configured w b refs /\ Forall2 (fetches w) refs vals
           /\ run_body w = (preflight w ++ cycles w b refs vals, Done tt)).
Proof.
  destruct (run_cases w)
    as [Hsub | Hsub Hsec | e Hsub Hsec Hexp | b e Hsub Hsec Hexp Hrefs
        | b refs vals Hsub Hcfg Hvals | b before vals r e after Hsub Hcfg Hvals He].
  - left. split; [done |]. unfold run_body. by rewrite (validate_forbidden _ Hsub).
  - right; left. split; [done |]. exists missing_secrets, [].
    split; [| done]. unfold run_body.
    rewrite (validate_passes _ Hsub), bind_done.
    unfold access_and_export_all, getInput. rewrite Hsec. cbn [andb].
    by rewrite !ret_bind, throw_bind.
  - right; left. split; [done |]. exists e, [].
    split; [| done]. unfold run_body.
    rewrite (validate_passes _ Hsub), bind_done.
    unfold access_and_export_all, getInput. rewrite Hsec. cbn [andb].
    rewrite !ret_bind, Hexp. cbn [call]. by rewrite throw_bind.
  - right; left. split; [done |]. exists e, [].
    split; [| done]. unfold run_body.
    rewrite (validate_passes _ Hsub), bind_done.
    unfold access_and_export_all, getInput. rewrite Hsec. cbn [andb].
    rewrite !ret_bind, Hexp. cbn [call]. rewrite !ret_bind, Hrefs. cbn [call].
    by rewrite throw_bind.
  - right; right. split; [done |]. exists b, refs, vals.
    split; [done |]. split; [done |].
    by rewrite (run_body_configured _ _ _ Hsub Hcfg), (loop_completes _ _ _ _ Hvals).
  - right; left. split; [done |].
    exists e, (cycles w b before vals ++ [AccessSecret (client_of w) r (encoding_of w)]).
    split; [| split].
    + by rewrite (run_body_configured _ _ _ Hsub Hcfg),
        (loop_stops _ _ _ _ _ _ _ Hvals He).
    + by rewrite failures_app, failures_cycles.
    + unfold log_lines. rewrite omap_app.
      rewrite (omap_cycles_nil _ w b before vals) by (by intros []). done.
Qed.

(** X4.  [setFailed] is called at most once in a run, as its very last
    event, after the events of the [try] block; the [try] block has then
    thrown, and the message is the action's failure prefix followed by
    [errorMessage] of the very error it threw; the run returns with exit
    code 1. *)
Theorem X4_setFailed_is_last (w : World) (msg : string) :
  In (SetFailed msg) (trace (run w)) ->
  exists e,
    outcome (run_body w) = Threw e
    /\ trace (run w) = trace (run_body w) ++ [SetFailed msg]
    /\ msg = failure_prefix +:+ errorMessage w e
    /\ failures (trace (run w)) = [msg]
    /\ outcome (run w) = Done tt
    /\ exit_status (run w) = 1.
Proof.
  intros Hin. apply In_failures in Hin.
  destruct (preflight_projections w) as (_ & _ & _ & _ & Hpf).
  destruct (run_body_cases w)
    as [[Hsub Hbody] | [(Hsub & e & t & Hbody & Hft & _)
                        | (Hsub & b & refs & vals & Hcfg & Hvals & Hbody)]].
  - unfold run in Hin. rewrite Hbody in Hin. by simpl in Hin.
  - exists e. unfold run in *. rewrite Hbody in *.
    cbn [try_catch setFailed emit trace outcome fst snd] in *.
    rewrite !failures_app, Hpf, Hft in Hin. destruct Hin as [<- | []].
    rewrite exit_status_done. cbn [trace fst].
    by rewrite !failures_app, Hpf, Hft.
  - destruct (exit_status_completes _ _ _ _ Hsub Hcfg Hvals) as [_ Hf].
    by rewrite Hf in Hin.
Qed.

Lemma X4_setFailed_is_last_witness :
  let w := Sample.world None "2" "false" Sample.three_refs Sample.store_without_two in
  let msg := "step-security/get-secretmanager-secrets failed with: Permission denied" in
  In (SetFailed msg) (trace (run w))
  /\ exists e,
       outcome (run_body w) = Threw e
       /\ trace (run w) = trace (run_body w) ++ [SetFailed msg]
       /\ msg = failure_prefix +:+ errorMessage w e.
Proof.
  intros w msg.
  assert (Hin : In (SetFailed msg) (trace (run w))).
  { apply In_failures. left. reflexivity. }
  split; [exact Hin |].
  destruct (X4_setFailed_is_last w msg Hin) as (e & Hthrew & Htrace & Hmsg & _).
  by exists e.
Defined.

(** X5.  Every run sends exactly one request to the subscription endpoint,
    to the URL built from the repository name and with a time limit of 3000
    milliseconds; the request is never repeated, whatever its answer and
    however many secrets are processed. *)
Theorem X5_one_request_per_run (w : World) :
  requests (trace (run w)) = [(API_URL w, 3000)].
Proof.
  assert (Hp : requests (preflight w) = [(API_URL w, 3000)]).
  { unfold preflight. by destruct (axios_get w (API_URL w) 3000). }
  assert (Hc : forall b refs vals, requests (cycles w b refs vals) = []).
  { intros. apply omap_cycles_nil. by intros []. }
  destruct (run_cases w)
    as [Hsub | Hsub Hsec | e Hsub Hsec Hexp | b e Hsub Hsec Hexp Hrefs
        | b refs vals Hsub Hcfg Hvals | b before vals r e after Hsub Hcfg Hvals He].
  - by rewrite (run_forbidden w Hsub).
  - rewrite (run_missing_secrets w Hsub Hsec). cbn [rejected_run trace fst].
    unfold requests in *. by rewrite omap_app, Hp.
  - rewrite (run_invalid_boolean w e Hsub Hsec Hexp). cbn [rejected_run trace fst].
    unfold requests in *. by rewrite omap_app, Hp.
  - rewrite (run_parse_error w b e Hsub Hsec Hexp Hrefs). cbn [rejected_run trace fst].
    unfold requests in *. by rewrite omap_app, Hp.
  - rewrite (run_completes w b refs vals Hsub Hcfg Hvals). cbn [trace fst].
    unfold requests in *. by rewrite omap_app, Hp, Hc.
  - rewrite (run_stops w b before vals r e after Hsub Hcfg Hvals He). cbn [trace fst].
    unfold requests in *. by rewrite !omap_app, Hp, Hc.
Qed.

(** X6.  The lines a run writes to the log through [info], [error] and
    [setFailed] are the line of the pre-flight check (the support message on
    a 403, the notice on any other failure of the request, nothing when it
    succeeds) followed, if the [try] block throws, by the one line of
    [setFailed] with the message of the thrown error, and by nothing
    otherwise.  Reading the inputs, fetching, masking and publishing write no
    line of their own. *)
Theorem X6_log_lines_of_a_run (w : World) :
  log_lines (trace (run w))
  = preflight_lines w
    ++ match outcome (run_body w) with
       | Threw e => [failure_prefix +:+ errorMessage w e]
       | _ => []
       end.
Proof.
  assert (Hp : forbidden w = false -> log_lines (preflight w) = preflight_lines w).
  { intros Hsub. unfold preflight, preflight_lines. rewrite Hsub.
    by destruct (axios_get w (API_URL w) 3000). }
  destruct (run_body_cases w)
    as [[Hsub Hbody] | [(Hsub & e & t & Hbody & _ & Hlt)
                        | (Hsub & b & refs & vals & Hcfg & Hvals & Hbody)]];
    unfold run; rewrite Hbody; cbn [try_catch setFailed emit trace outcome fst snd].
  - unfold preflight_lines. by rewrite Hsub.
  - unfold log_lines in *. rewrite !omap_app, (Hp Hsub), Hlt.
    by rewrite app_nil_r.
  - unfold log_lines in *. rewrite omap_app, (Hp Hsub).
    rewrite (omap_cycles_nil _ w b refs vals) by (by intros []). done.
Qed.

(** ** Which secrets are fetched, and how *)

Lemma In_access_cycle (w : World) b r v cl r' enc :
  In (AccessSecret cl r' enc) (cycle w b r v) ->
  cl = client_of w /\ r' = r /\ enc = encoding_of w.
Proof.
  unfold cycle. intros [[= <- <- <-] | Hin]; [done |].
  apply in_app_or in Hin as [Hin | Hin].
  - apply in_map_iff in Hin as (l & [=] & _).
  - destruct b; simpl in Hin; intuition discriminate.
Qed.

Lemma In_access_cycles (w : World) b refs vals cl r enc :
  In (AccessSecret cl r enc) (cycles w b refs vals) ->
  cl = client_of w /\ In r refs /\ enc = encoding_of w.
Proof.
  revert vals. induction refs as [| r0 refs IH]; intros [| v vals] Hin; try done.
  rewrite cycles_cons in Hin. apply in_app_or in Hin as [Hin | Hin].
  - apply In_access_cycle in Hin as (-> & -> & ->). split; [done |]. split; [by left | done].
  - destruct (IH _ Hin) as (-> & Hr & ->). split; [done |]. split; [by right | done].
Qed.

Lemma In_access_preflight (w : World) cl r enc :
  ~ In (AccessSecret cl r enc) (preflight w).
Proof.
  unfold preflight. destruct (axios_get w (API_URL w) 3000); simpl; intuition discriminate.
Qed.

(** X7.  Every secret a run fetches is one of the references returned by
    the parser for accepted inputs, and all fetches of a run use the same
    client, created for the trimmed [universe] input, and the same
    encoding: the [encoding] input, or [utf8] when that input is empty. *)
Theorem X7_fetches_use_the_configuration (w : World) (cl : Client) (r : Reference)
    (enc : string) :
  In (AccessSecret cl r enc) (trace (run w)) ->
  cl = {| universe := Js.trim (inputs w "universe") |}
  /\ enc = (if Js.is_empty (Js.trim (inputs w "encoding")) then "utf8"
            else Js.trim (inputs w "encoding"))
  /\ exists b refs,
       forbidden w = false /\ Configured w b refs /\ In r refs.
Proof.
  assert (Henc : encoding_of w
                 = if Js.is_empty (Js.trim (inputs w "encoding")) then "utf8"
                   else Js.trim (inputs w "encoding")).
  { unfold encoding_of, Js.or_else, Js.truthy.
    by destruct (Js.is_empty (Js.trim (inputs w "encoding"))). }
  rewrite <- Henc. fold (client_of w).
  intros Hin.
  destruct (run_cases w)
    as [Hsub | Hsub Hsec | e Hsub Hsec Hexp | b e Hsub Hsec Hexp Hrefs
        | b refs vals Hsub Hcfg Hvals | b before vals r0 e after Hsub Hcfg Hvals He].
  - rewrite (run_forbidden w Hsub) in Hin. simpl in Hin. intuition discriminate.
  - rewrite (run_missing_secrets w Hsub Hsec) in Hin. cbn [rejected_run trace fst] in Hin.
    apply in_app_or in Hin as [Hin | Hin]; [by apply In_access_preflight in Hin |].
    simpl in Hin. intuition discriminate.
  - rewrite (run_invalid_boolean w e Hsub Hsec Hexp) in Hin.
    cbn [rejected_run trace fst] in Hin.
    apply in_app_or in Hin as [Hin | Hin]; [by apply In_access_preflight in Hin |].
    simpl in Hin. intuition discriminate.
  - rewrite (run_parse_error w b e Hsub Hsec Hexp Hrefs) in Hin.
    cbn [rejected_run trace fst] in Hin.
    apply in_app_or in Hin as [Hin | Hin]; [by apply In_access_preflight in Hin |].
    simpl in Hin. intuition discriminate.
  - rewrite (run_completes w b refs vals Hsub Hcfg Hvals) in Hin. cbn [trace fst] in Hin.
    apply in_app_or in Hin as [Hin | Hin]; [by apply In_access_preflight in Hin |].
    apply In_access_cycles in Hin as (-> & Hr & ->).
    split; [done |]. split; [done |]. by exists b, refs.
  - rewrite (run_stops w b before vals r0 e after Hsub Hcfg Hvals He) in Hin.
    cbn [trace fst] in Hin.
    apply in_app_or in Hin as [Hin | Hin]; [by apply In_access_preflight in Hin |].
    apply in_app_or in Hin as [Hin | Hin].
    + apply In_access_cycles in Hin as (-> & Hr & ->).
      split; [done |]. split; [done |].
      exists b, (before ++ r0 :: after). split; [done |]. split; [done |].
      apply in_or_app. by left.
    + destruct Hin as [[= <- <- <-] | [[=] | []]].
      split; [done |]. split; [done |].
      exists b, (before ++ r0 :: after). split; [done |]. split; [done |].
      apply in_or_app. right. by left.
Qed.

Lemma X7_fetches_use_the_configuration_witness :
  let w := Sample.world None "2" "false" Sample.three_refs Sample.store in
  let r := Sample.ref "p/s/two" "TWO" in
  In (AccessSecret {| universe := "" |} r "utf8") (trace (run w))
  /\ exists b refs, forbidden w = false /\ Configured w b refs /\ In r refs.
Proof.
  intros w r.
  assert (Hin : In (AccessSecret {| universe := "" |} r "utf8") (trace (run w))).
  { vm_compute. auto 10. }
  split; [exact Hin |].
  by destruct (X7_fetches_use_the_configuration w _ r _ Hin) as (_ & _ & H).
Defined.

(** ** More on the masking policy *)

Lemma string_app_nil_r (s : string) : s +:+ "" = s.
Proof.
  induction s as [| c s IH]; [done |].
  change (String c s +:+ "") with (String c (s +:+ "")). by rewrite IH.
Qed.

Lemma string_app_assoc (s1 s2 s3 : string) : (s1 +:+ s2) +:+ s3 = s1 +:+ s2 +:+ s3.
Proof.
  induction s1 as [| c s1 IH]; [done |].
  change ((String c s1 +:+ s2) +:+ s3) with (String c ((s1 +:+ s2) +:+ s3)).
  change (String c s1 +:+ s2 +:+ s3) with (String c (s1 +:+ s2 +:+ s3)).
  by rewrite IH.
Qed.

Lemma In_mask_lines (m : Js.Number) (v line : string) :
  In (SetSecret line) (trace (mask_lines m v)) <->
  In line (Js.split_lines v) /\ should_mask m line = true.
Proof.
  rewrite mask_lines_eq. cbn [trace fst].
  rewrite In_secrets_set, secrets_set_masks. unfold masked_lines.
  apply filter_In.
Qed.

Lemma filter_refine {X} (f g h : X -> bool) (l : list X) :
  (forall x, f x = h x && g x) ->
  List.filter f l = List.filter h (List.filter g l).
Proof.
  intros Hf. induction l as [| x l IH]; [done |].
  simpl. rewrite Hf. destruct (g x); simpl.
  - rewrite andb_true_r. by rewrite IH.
  - by rewrite andb_false_r.
Qed.

(** X8.  Raising the minimum mask length only removes masking calls: for
    [n <= m], the lines masked with minimum [m] are the lines masked with
    minimum [n] that have at least [m] code units, in the same order; every
    line masked with [m] is masked with [n]. *)
Theorem X8_mask_threshold_is_monotone (v : string) (n m : Z) :
  n <= m ->
  secrets_set (trace (mask_lines (Js.Num m) v))
  = List.filter (fun line => m <=? Z.of_nat (String.length line))
      (secrets_set (trace (mask_lines (Js.Num n) v)))
  /\ (forall line,
        In (SetSecret line) (trace (mask_lines (Js.Num m) v)) ->
        In (SetSecret line) (trace (mask_lines (Js.Num n) v))).
Proof.
  intros Hnm.
  assert (Hsm : forall line,
             should_mask (Js.Num m) line
             = (m <=? Z.of_nat (String.length line)) && should_mask (Js.Num n) line).
  { intros line. unfold should_mask, Js.length_ge.
    destruct (Js.truthy line); simpl; [| by rewrite andb_false_r].
    destruct (Z.leb_spec m (Z.of_nat (String.length line))); [| done].
    simpl. symmetry. apply Z.leb_le. lia. }
  split.
  - rewrite !mask_lines_eq. cbn [trace fst]. rewrite !secrets_set_masks.
    unfold masked_lines. by apply filter_refine.
  - intros line. rewrite !In_mask_lines. intros [Hin Hm]. split; [done |].
    rewrite Hsm in Hm. by apply andb_true_iff in Hm as [_ Hn].
Qed.

Lemma X8_mask_threshold_is_monotone_witness :
  (2 <= 3)
  /\ secrets_set (trace (mask_lines (Js.Num 3) Sample.multiline))
     = List.filter (fun line => 3 <=? Z.of_nat (String.length line))
         (secrets_set (trace (mask_lines (Js.Num 2) Sample.multiline))).
Proof.
  assert (H : 2 <= 3) by lia.
  split; [exact H |].
  exact (proj1 (X8_mask_threshold_is_monotone Sample.multiline 2 3 H)).
Defined.

(** X9.  With a minimum mask length of 1 or less (0 and negative numbers
    included) every non-empty line of the value is masked; and whatever the
    minimum is, an empty line is never passed to [setSecret]. *)
Theorem X9_small_threshold_masks_every_line (v : string) (n : Z) :
  n <= 1 ->
  secrets_set (trace (mask_lines (Js.Num n) v))
  = List.filter (fun line => negb (Js.is_empty line)) (Js.split_lines v)
  /\ (forall m, ~ In (SetSecret "") (trace (mask_lines m v))).
Proof.
  intros Hn. split.
  - rewrite mask_lines_eq. cbn [trace fst]. rewrite secrets_set_masks.
    unfold masked_lines. apply filter_ext. intros line.
    unfold should_mask, Js.truthy, Js.length_ge.
    destruct line as [| c line]; [done |]. simpl.
    apply Z.leb_le. lia.
  - intros m. rewrite In_mask_lines. by intros [_ Hm].
Qed.

Lemma X9_small_threshold_masks_every_line_witness :
  (0 <= 1)
  /\ secrets_set (trace (mask_lines (Js.Num 0) Sample.multiline)) = ["a"; "bb"; "ccc"].
Proof.
  assert (H : 0 <= 1) by lia.
  split; [exact H |].
  rewrite (proj1 (X9_small_threshold_masks_every_line Sample.multiline 0 H)).
  reflexivity.
Defined.

Lemma split_lines_single (v : string) :
  Lines.has_no_break v -> Js.split_lines v = [v].
Proof.
  induction v as [| c v IH]; [done |].
  intros (Hcr & Hlf & Hv). simpl.
  apply Ascii.eqb_neq in Hcr, Hlf. rewrite Hcr, Hlf.
  by rewrite (IH Hv).
Qed.

(** X10.  The value as a whole is passed to [setSecret] exactly when it
    contains no line break and qualifies as a line (non-empty and at least
    as long as the minimum).  A value that spans several lines is masked
    line by line only, never as one string. *)
Theorem X10_whole_value_masked_iff_single_line (m : Js.Number) (v : string) :
  In (SetSecret v) (trace (mask_lines m v)) <->
  Lines.has_no_break v /\ should_mask m v = true.
Proof.
  rewrite In_mask_lines. split.
  - intros [Hin Hm]. split; [| done].
    pose proof (SplitFacts.split_lines_no_break v) as Hall.
    rewrite List.Forall_forall in Hall. by apply Hall.
  - intros [Hv Hm]. split; [| done].
    rewrite (split_lines_single _ Hv). by left.
Qed.

Lemma weave_contains (lines seps : list string) (line : string) :
  In line lines ->
  (length lines <= S (length seps))%nat ->
  exists pre post, Lines.weave lines seps = pre +:+ line +:+ post.
Proof.
  revert seps. induction lines as [| l ls IH]; intros seps Hin Hlen; [done |].
  destruct seps as [| sep seps].
  - destruct ls; [| simpl in Hlen; lia].
    destruct Hin as [-> | []]. exists "", "". simpl. by rewrite string_app_nil_r.
  - simpl. destruct Hin as [-> | Hin].
    + by exists "", (sep +:+ Lines.weave ls seps).
    + destruct (IH seps Hin) as (pre & post & ->); [simpl in Hlen; lia |].
      exists (l +:+ sep +:+ pre), post. by rewrite !string_app_assoc.
Qed.

(** X11.  Every string passed to [setSecret] is a contiguous piece of the
    fetched value, free of carriage returns and line feeds and not empty:
    the action masks nothing that is not part of the secret. *)
Theorem X11_masked_lines_are_pieces_of_the_value (m : Js.Number) (v line : string) :
  In (SetSecret line) (trace (mask_lines m v)) ->
  (exists pre post, v = pre +:+ line +:+ post)
  /\ Lines.has_no_break line
  /\ line <> "".
Proof.
  rewrite In_mask_lines. intros [Hin Hm]. split; [| split].
  - destruct (weave_contains _ (Lines.line_breaks v) _ Hin) as (pre & post & Hw).
    { by rewrite SplitFacts.split_lines_length. }
    rewrite SplitFacts.weave_split_lines in Hw. by exists pre, post.
  - pose proof (SplitFacts.split_lines_no_break v) as Hall.
    rewrite List.Forall_forall in Hall. by apply Hall.
  - intros ->. discriminate Hm.
Qed.

Lemma X11_masked_lines_are_pieces_of_the_value_witness :
  In (SetSecret "bb") (trace (mask_lines (Js.Num 2) Sample.multiline))
  /\ exists pre post, Sample.multiline = pre +:+ "bb" +:+ post.
Proof.
  assert (Hin : In (SetSecret "bb") (trace (mask_lines (Js.Num 2) Sample.multiline))).
  { left. reflexivity. }
  split; [exact Hin |].
  exact (proj1 (X11_masked_lines_are_pieces_of_the_value _ _ _ Hin)).
Defined.

(** ** Joining and splitting lines *)

Lemma split_lines_prepend (l s : string) :
  Lines.has_no_break l ->
  Js.split_lines (l +:+ s)
  = match Js.split_lines s with
    | x :: xs => (l +:+ x) :: xs
    | [] => [l]
    end.
Proof.
  induction l as [| c l IH]; intros Hl.
  - change ("" +:+ s) with s.
    destruct (Js.split_lines s) eqn:Hs; [| done].
    by apply SplitFacts.split_lines_nonempty in Hs.
  - destruct Hl as (Hcr & Hlf & Hl).
    change (String c l +:+ s) with (String c (l +:+ s)).
    apply Ascii.eqb_neq in Hcr, Hlf.
    cbn [Js.split_lines]. rewrite Hcr, Hlf, (IH Hl).
    by destruct (Js.split_lines s).
Qed.

Lemma split_lines_after_break (sep rest : string) :
  Lines.is_line_break sep ->
  (sep = String Js.CR "" -> starts_with_LF rest = false) ->
  Js.split_lines (sep +:+ rest) = "" :: Js.split_lines rest.
Proof.
  intros [-> | [-> | ->]] Hrest; try done.
  change (String Js.CR "" +:+ rest) with (String Js.CR rest).
  specialize (Hrest eq_refl). destruct rest as [| c rest]; [done |].
  simpl in Hrest. cbn [Js.split_lines]. by rewrite Hrest.
Qed.

Lemma join_lines_not_LF (lines : list string) :
  Forall Lines.has_no_break lines ->
  starts_with_LF (join_lines (String Js.CR "") lines) = false.
Proof.
  intros Hall. destruct Hall as [| l ls Hl Hls]; [done |].
  assert (Hfirst : forall s, starts_with_LF (l +:+ String Js.CR s) = false).
  { intros s. destruct l as [| c l]; [done |].
    destruct Hl as (_ & Hlf & _). by apply Ascii.eqb_neq in Hlf. }
  destruct ls as [| l2 ls]; [| apply Hfirst].
  simpl. destruct l as [| c l]; [done |].
  destruct Hl as (_ & Hlf & _). by apply Ascii.eqb_neq in Hlf.
Qed.

(** X12.  Splitting undoes joining, whichever line-break convention is
    used: for a non-empty list of lines that contain no CR and no LF, the
    value made of these lines joined with CR LF, with CR or with LF is
    split back into exactly these lines.  The three conventions therefore
    lead to the same masking calls. *)
Theorem X12_split_undoes_join (sep : string) (lines : list string) :
  Lines.is_line_break sep ->
  lines <> [] ->
  Forall Lines.has_no_break lines ->
  Js.split_lines (join_lines sep lines) = lines
  /\ (forall m,
        secrets_set (trace (mask_lines m (join_lines sep lines)))
        = List.filter (should_mask m) lines).
Proof.
  intros Hsep Hne Hall.
  assert (Hsplit : Js.split_lines (join_lines sep lines) = lines).
  { induction Hall as [| l ls Hl Hls IH]; [done |].
    destruct ls as [| l2 ls]; [by apply split_lines_single |].
    change (join_lines sep (l :: l2 :: ls))
      with (l +:+ sep +:+ join_lines sep (l2 :: ls)).
    rewrite (split_lines_prepend _ _ Hl), split_lines_after_break, IH; try done.
    - by rewrite string_app_nil_r.
    - intros ->. by apply join_lines_not_LF. }
  split; [done |].
  intros m. rewrite mask_lines_eq. cbn [trace fst].
  rewrite secrets_set_masks. unfold masked_lines. by rewrite Hsplit.
Qed.

Lemma X12_split_undoes_join_witness :
  let crlf := String Js.CR (String Js.LF "") in
  Lines.is_line_break crlf
  /\ ["a"; ""; "bb"] <> []
  /\ Forall Lines.has_no_break ["a"; ""; "bb"]
  /\ Js.split_lines (join_lines crlf ["a"; ""; "bb"]) = ["a"; ""; "bb"].
Proof.
  intros crlf.
  assert (Hsep : Lines.is_line_break crlf) by (by left).
  assert (Hne : ["a"; ""; "bb"] <> []) by discriminate.
  assert (Hall : Forall Lines.has_no_break ["a"; ""; "bb"]).
  { repeat constructor; discriminate. }
  split; [exact Hsep |]. split; [exact Hne |]. split; [exact Hall |].
  exact (proj1 (X12_split_undoes_join crlf _ Hsep Hne Hall)).
Defined.

(** ** All the masking calls of a run *)

Lemma zip_with_second {X Y Z} (g : Y -> Z) (xs : list X) (ys : list Y) :
  length xs = length ys -> zip_with (fun _ y => g y) xs ys = map g ys.
Proof.
  revert ys. induction xs as [| x xs IH]; intros [| y ys] Hlen; try done.
  simpl. f_equal. apply IH. by injection Hlen.
Qed.

Lemma concat_zip_with_second {X Y Z} (g : Y -> list Z) (xs : list X) (ys : list Y) :
  length xs = length ys ->
  concat (zip_with (fun _ y => g y) xs ys) = concat (map g ys).
Proof. intros Hlen. by rewrite zip_with_second. Qed.

(** X13.  In a run that gets past the pre-flight check with accepted
    inputs, the [setSecret] calls of the whole run are, in order, the
    qualifying lines of the first fetched value, then those of the second,
    and so on for every value fetched; there is no other masking call. *)
Theorem X13_masks_of_a_run (w : World) (b : bool) (refs : list Reference) :
  forbidden w = false ->
  Configured w b refs ->
  exists done vals rest,
    fetched_prefix w refs done vals rest
    /\ secrets_set (trace (run w))
       = concat (map (fun v => List.filter (should_mask (min_mask_length_of w))
                                 (Js.split_lines v)) vals).
Proof.
  intros Hsub Hcfg.
  destruct (run_configured _ _ _ Hsub Hcfg)
    as (done & vals & rest & tail & Hpre & Hrun & Htail).
  exists done, vals, rest. split; [done |].
  destruct (preflight_projections w) as (Hps & _).
  pose proof Hpre as (_ & Hvals & _).
  rewrite Hrun. cbn [trace fst]. rewrite !secrets_set_app, Hps.
  replace (secrets_set tail) with (@nil string)
    by (by destruct Htail as [[_ ->] | (r & e & after & _ & ->)]).
  rewrite app_nil_r. cbn [app].
  unfold secrets_set. rewrite cycles_omap.
  erewrite zip_with_ext; [| | done | done].
  - apply concat_zip_with_second. by eapply Forall2_fetches_length.
  - intros r v. apply secrets_set_cycle.
Qed.

Lemma X13_masks_of_a_run_witness :
  let w := Sample.world None "2" "false" Sample.three_refs Sample.store in
  forbidden w = false
  /\ Configured w false Sample.three_refs
  /\ exists done vals rest,
       fetched_prefix w Sample.three_refs done vals rest
       /\ secrets_set (trace (run w))
          = concat (map (fun v => List.filter (should_mask (min_mask_length_of w))
                                    (Js.split_lines v)) vals).
Proof.
  intros w.
  assert (Hcfg : Configured w false Sample.three_refs) by (by split).
  split; [reflexivity |]. split; [exact Hcfg |].
  exact (X13_masks_of_a_run w false Sample.three_refs eq_refl Hcfg).
Defined.

(** ** The minimum mask length touches nothing but the masking *)

Lemma unmasked_app (t1 t2 : list Event) : unmasked (t1 ++ t2) = unmasked t1 ++ unmasked t2.
Proof. apply filter_app. Qed.

Lemma unmasked_masks (ls : list string) : unmasked (map SetSecret ls) = [].
Proof. by induction ls. Qed.

Lemma unmasked_cycle (w : World) b r v : unmasked (cycle w b r v) = publication w b r v.
Proof.
  unfold cycle, publication.
  change (?e :: ?l ++ ?k) with ([e] ++ l ++ k).
  rewrite !unmasked_app, unmasked_masks. by destruct b.
Qed.

Lemma unmasked_cycles (w : World) b refs vals :
  unmasked (cycles w b refs vals) = concat (zip_with (publication w b) refs vals).
Proof.
  revert vals. induction refs as [| r refs IH]; intros [| v vals]; try done.
  rewrite cycles_cons, unmasked_app, unmasked_cycle, IH. done.
Qed.

Lemma unmasked_preflight (w : World) : unmasked (preflight w) = preflight w.
Proof. unfold preflight. by destruct (axios_get w (API_URL w) 3000). Qed.

Lemma unmasked_rejected (w : World) e :
  unmasked (trace (rejected_run w e)) = trace (rejected_run w e).
Proof.
  cbn [rejected_run trace fst]. by rewrite unmasked_app, unmasked_preflight.
Qed.

(** X14.  The [min_mask_length] input influences the [setSecret] calls and
    nothing else: with any other value of this input the run performs the
    same request, log lines, fetches, [setOutput], [exportVariable] and
    [setFailed] calls, in the same order, and ends the same way. *)
Theorem X14_min_mask_length_only_affects_masking (w : World) (value : string) :
  unmasked (trace (run (with_input w "min_mask_length" value)))
  = unmasked (trace (run w))
  /\ outcome (run (with_input w "min_mask_length" value)) = outcome (run w).
Proof.
  set (w' := with_input w "min_mask_length" value).
  destruct (run_cases w)
    as [Hsub | Hsub Hsec | e Hsub Hsec Hexp | b e Hsub Hsec Hexp Hrefs
        | b refs vals Hsub Hcfg Hvals | b before vals r e after Hsub Hcfg Hvals He].
  - by rewrite (run_forbidden w Hsub), (run_forbidden w' Hsub).
  - rewrite (run_missing_secrets w Hsub Hsec), (run_missing_secrets w' Hsub Hsec).
    by rewrite !unmasked_rejected.
  - rewrite (run_invalid_boolean w e Hsub Hsec Hexp).
    rewrite (run_invalid_boolean w' e Hsub Hsec Hexp).
    by rewrite !unmasked_rejected.
  - rewrite (run_parse_error w b e Hsub Hsec Hexp Hrefs).
    rewrite (run_parse_error w' b e Hsub Hsec Hexp Hrefs).
    by rewrite !unmasked_rejected.
  - assert (Hcfg' : Configured w' b refs) by (by destruct Hcfg).
    rewrite (run_completes w b refs vals Hsub Hcfg Hvals).
    rewrite (run_completes w' b refs vals Hsub Hcfg' Hvals).
    cbn [trace outcome fst snd].
    by rewrite !unmasked_app, !unmasked_preflight, !unmasked_cycles.
  - assert (Hcfg' : Configured w' b (before ++ r :: after)) by (by destruct Hcfg).
    rewrite (run_stops w b before vals r e after Hsub Hcfg Hvals He).
    rewrite (run_stops w' b before vals r e after Hsub Hcfg' Hvals He).
    cbn [trace outcome fst snd].
    by rewrite !unmasked_app, !unmasked_preflight, !unmasked_cycles.
Qed.

Lemma X2_exit_zero_iff_all_published_witness :
  let w := Sample.world None "2" "false" Sample.three_refs Sample.store in
  (exists b refs vals,
      forbidden w = false
      /\ Configured w b refs
      /\ Forall2 (fetches w) refs vals
      /\ outputs_set (trace (run w)) = zip_with published refs vals)
  /\ exit_status (run w) = 0.
Proof.
  intros w.
  assert (H : exists b refs vals,
             forbidden w = false
             /\ Configured w b refs
             /\ Forall2 (fetches w) refs vals
             /\ outputs_set (trace (run w)) = zip_with published refs vals).
  { exists false, Sample.three_refs, [Sample.multiline; "second-value"; "third-value"].
    split; [reflexivity |]. split; [by split |].
    split; [repeat constructor | reflexivity]. }
  split; [exact H |].
  exact (proj2 (X2_exit_zero_iff_all_published w) H).
Defined.

Lemma X10_whole_value_masked_iff_single_line_witness :
  Lines.has_no_break "second-value"
  /\ should_mask (Js.Num 4) "second-value" = true
  /\ In (SetSecret "second-value") (trace (mask_lines (Js.Num 4) "second-value")).
Proof.
  assert (H : Lines.has_no_break "second-value"
              /\ should_mask (Js.Num 4) "second-value" = true).
  { split; [| reflexivity]. repeat split; discriminate. }
  destruct H as [Hv Hm].
  split; [exact Hv |]. split; [exact Hm |].
  exact (proj2 (X10_whole_value_masked_iff_single_line (Js.Num 4) "second-value")
           (conj Hv Hm)).
Defined.
